(** * Watch: a command re-runner driven by acme's log of file writes

    A shallow embedding of [main.go] (the program with the [-t] flag and
    the per-run environment) and of the older variant of the same program
    that matches the [-only] pattern against the base name of a file.

    Go strings are [string], the Go [int] is a [Z] wrapped at 64 bits, a
    nil pointer is [None].  The program's effects (window calls, process
    signals, the mutex, goroutine spawns) are recorded, in program order,
    as a list of [action]s produced by a small state-and-log monad. *)

From Stdlib Require Import String Ascii List ZArith Lia Bool Sorted DecimalString.
Import ListNotations.
Open Scope string_scope.

(** ** Go library functions used by the program *)

Module Go.

(** [strings.HasPrefix(s, prefix)] *)
Definition HasPrefix (s pre : string) : bool := String.prefix pre s.

(** [strings.Join(elems, sep)] *)
Definition Join (elems : list string) (sep : string) : string :=
  String.concat sep elems.

(** [strings.Split(s, sep)] for a separator of one byte: the substrings
    between the separators, so never an empty list. *)
Fixpoint Split (s : string) (sep : ascii) : list string :=
  match s with
  | EmptyString => [""]
  | String c s' =>
      if Ascii.eqb c sep then "" :: Split s' sep
      else match Split s' sep with
           | h :: t => String c h :: t
           | [] => [String c ""]
           end
  end.

(** Index 0 of a slice that is known to be non-empty. *)
Definition index0 (vv : list string) : string := hd "" vv.

Definition IsPathSeparator (c : ascii) : bool := Ascii.eqb c "/"%char.

Fixpoint dropWhile {A} (p : A -> bool) (l : list A) : list A :=
  match l with
  | [] => []
  | x :: l' => if p x then dropWhile p l' else l
  end.

Fixpoint takeWhile {A} (p : A -> bool) (l : list A) : list A :=
  match l with
  | [] => []
  | x :: l' => if p x then x :: takeWhile p l' else []
  end.

(** [filepath.Base(path)] on Unix: trailing separators are stripped, the
    last element is returned; [""] gives ["."], only separators give ["/"]. *)
Definition Base (path : string) : string :=
  match path with
  | EmptyString => "."
  | _ =>
      let stripped := dropWhile IsPathSeparator (rev (list_ascii_of_string path)) in
      let last := takeWhile (fun c => negb (IsPathSeparator c)) stripped in
      match last with
      | [] => "/"
      | _ => string_of_list_ascii (rev last)
      end
  end.

(** [fmt.Sprintf("%d", n)] *)
Definition fmt_d (n : Z) : string := NilZero.string_of_int (Z.to_int n).

(** The Go [int] of a 64-bit platform: two's complement, [++] wraps. *)
Definition min_int : Z := - 2 ^ 63.
Definition max_int : Z := 2 ^ 63 - 1.
Definition wrap (z : Z) : Z := (z + 2 ^ 63) mod 2 ^ 64 - 2 ^ 63.
Definition incr (z : Z) : Z := wrap (z + 1).

(** A compiled [*regexp.Regexp]: the program only ever calls its
    [MatchString] method, which finds a match anywhere in the string. *)
Record Regexp := { source : string; MatchString : string -> bool }.

(** [regexp.MustCompile(".*")], the default of [-only]. *)
Definition re_any : Regexp := {| source := ".*"; MatchString := fun _ => true |}.

(** [regexp.MustCompile("^" + lit)] for a literal without metacharacters. *)
Definition re_anchored_prefix (lit : string) : Regexp :=
  {| source := "^" ++ lit; MatchString := fun s => String.prefix lit s |}.

Fixpoint has_suffix (suf s : string) : bool :=
  String.eqb suf s ||
  match s with
  | EmptyString => false
  | String _ s' => has_suffix suf s'
  end.

(** [regexp.MustCompile(regexp.QuoteMeta(lit) + "$")] *)
Definition re_anchored_suffix (lit : string) : Regexp :=
  {| source := lit ++ "$"; MatchString := fun s => has_suffix lit s |}.

End Go.

(** ** Buffered channels *)

Module Chan.

(** What a channel operation does when it is attempted. *)
Inductive attempt (R : Type) := Ready (r : R) | Blocks.
Arguments Ready {R} r.
Arguments Blocks {R}.

Section Channel.
Context {A : Type}.

(** [make(chan A, cap)]: the values sent and not yet received, oldest first. *)
Record t := { cap : nat; queue : list A }.

Definition make (n : nat) : t := {| cap := n; queue := [] |}.

(** [ch <- x]: proceeds when the buffer has room, blocks otherwise. *)
Definition send (ch : t) (x : A) : attempt t :=
  if Nat.ltb (length (queue ch)) (cap ch)
  then Ready {| cap := cap ch; queue := (queue ch ++ [x])%list |}
  else Blocks.

(** [<-ch], as [range ch] does on every iteration. *)
Definition recv (ch : t) : attempt (A * t) :=
  match queue ch with
  | x :: q => Ready (x, {| cap := cap ch; queue := q |})
  | [] => Blocks
  end.

(** [select { case ch <- x: default: }]: the send when it can proceed, the
    empty default branch when it cannot.  The flag tells which was taken. *)
Definition select_send_default (ch : t) (x : A) : t * bool :=
  match send ch x with
  | Ready ch' => (ch', true)
  | Blocks => (ch, false)
  end.

End Channel.

Arguments t A : clear implicits.

End Chan.

(** ** The acme log and the restart signal *)

(** [acme.LogEvent] *)
Record LogEvent := { ID : Z; Op : string; Name : string }.

(** What travels on [needrun]: a [*acme.LogEvent], nil for the run at
    startup and for a click on Get. *)
Definition signal := option LogEvent.

(** [var needrun = make(chan *acme.LogEvent, 1)] *)
Definition needrun0 : Chan.t signal := Chan.make 1.

(** The condition of the [if] in the loop of [main] (main.go, line 79). *)
Definition qualifies (re : Go.Regexp) (pwd : string) (event : LogEvent) : bool :=
  negb (Name event =? "") && (Op event =? "put")
  && Go.HasPrefix (Name event) pwd && Go.MatchString re (Name event).

(** The same condition in the older variant of [main] (line 75), which
    matches the pattern against [filepath.Base(event.Name)]. *)
Definition qualifies_base (re : Go.Regexp) (pwd : string) (event : LogEvent) : bool :=
  negb (Name event =? "") && (Op event =? "put")
  && Go.HasPrefix (Name event) pwd && Go.MatchString re (Go.Base (Name event)).

(** One turn of the loop of [main] after [l.Read()] returned [event]: the
    channel afterwards and the time slept, in milliseconds. *)
Definition main_step (re : Go.Regexp) (pwd : string) (event : LogEvent)
    (needrun : Chan.t signal) : Chan.t signal * Z :=
  if qualifies re pwd event
  then (fst (Chan.select_send_default needrun (Some event)), 100%Z)
  else (needrun, 0%Z).

Definition main_step_base (re : Go.Regexp) (pwd : string) (event : LogEvent)
    (needrun : Chan.t signal) : Chan.t signal * Z :=
  if qualifies_base re pwd event
  then (fst (Chan.select_send_default needrun (Some event)), 100%Z)
  else (needrun, 0%Z).

(** Execution of the text [Get] in the window, in [events]. *)
Definition events_Get (needrun : Chan.t signal) : Chan.t signal :=
  fst (Chan.select_send_default needrun None).

(** ** The environment of a run *)

Definition reserved (k : string) : bool :=
  (k =? "samfile") || (k =? "%") || (k =? "winid").

(** [envOf], with [os.Environ()] as the argument [environ]. *)
Definition envOf (environ : list string) (event : signal) : list string :=
  let filtered :=
    fold_left
      (fun filtered v =>
         let vv := Go.Split v "="%char in
         if reserved (Go.index0 vv) then filtered else (filtered ++ [v])%list)
      environ [] in
  match event with
  | None => filtered
  | Some e =>
      let added :=
        ["samfile=" ++ Name e; "%=" ++ Name e; "winid=" ++ Go.fmt_d (ID e)] in
      (filtered ++ added)%list
  end.


(** ** The acme window

    The window is an object of the acme library, outside this program.
    Its state is modelled after acme(4) for the calls the program makes:
    [Addr(",")] addresses the whole body and an address of [#0] its start,
    a write to [data] replaces the addressed text, a write to [body]
    appends, [Ctl("clean")] marks the window unmodified and
    [Ctl("dot=addr")] moves the selection to the address. *)

Module Acme.

Inductive call :=
| Name_ (s : string)                  (* win.Name(s) *)
| Addr (s : string)                   (* win.Addr(s) *)
| Ctl (s : string)                    (* win.Ctl(s) *)
| Write_ (file data : string)         (* win.Write(file, data) *)
| Fprintf (file text : string).       (* win.Fprintf(file, format, ...), formatted *)

Record Win := {
  name : string;
  tag : string;
  body : string;
  addr : nat * nat;       (* q0, q1 *)
  dot : nat * nat;
  clean : bool            (* not marked modified *)
}.

Definition new : Win :=
  {| name := ""; tag := ""; body := ""; addr := (0, 0); dot := (0, 0); clean := true |}.

Definition set_addr (a : string) (w : Win) : Win :=
  if a =? "," then
    {| name := name w; tag := tag w; body := body w;
       addr := (0, String.length (body w)); dot := dot w; clean := clean w |}
  else if a =? "#0" then
    {| name := name w; tag := tag w; body := body w;
       addr := (0, 0); dot := dot w; clean := clean w |}
  else w.

Definition write_file (file data : string) (w : Win) : Win :=
  if file =? "body" then
    {| name := name w; tag := tag w; body := body w ++ data;
       addr := addr w; dot := dot w; clean := false |}
  else if file =? "data" then
    let '(q0, q1) := addr w in
    {| name := name w; tag := tag w;
       body := substring 0 q0 (body w) ++ data
               ++ substring q1 (String.length (body w) - q1) (body w);
       addr := (q0 + String.length data, q0 + String.length data);
       dot := dot w; clean := false |}
  else if file =? "tag" then
    {| name := name w; tag := tag w ++ data; body := body w;
       addr := addr w; dot := dot w; clean := clean w |}
  else if file =? "addr" then set_addr data w
  else w.

Definition ctl (c : string) (w : Win) : Win :=
  if c =? "clean" then
    {| name := name w; tag := tag w; body := body w;
       addr := addr w; dot := dot w; clean := true |}
  else if c =? "dot=addr" then
    {| name := name w; tag := tag w; body := body w;
       addr := addr w; dot := addr w; clean := clean w |}
  else w.

Definition apply (c : call) (w : Win) : Win :=
  match c with
  | Name_ s =>
      {| name := s; tag := tag w; body := body w;
         addr := addr w; dot := dot w; clean := clean w |}
  | Addr a => set_addr a w
  | Ctl c => ctl c w
  | Write_ file data => write_file file data w
  | Fprintf file text => write_file file text w
  end.

End Acme.

(** ** Processes, effects and the shared state *)

(** [os.File]s the program hands to a command. *)
Inductive File := os_Stdout | os_Stderr | pipe_r | pipe_w.

(** [exec.Cmd]; [Process] is set by a successful [Start]. *)
Record Cmd := {
  Args : list string;
  Env : list string;
  Stdout : option File;
  Stderr : option File;
  Process : option nat
}.

(** [exec.Command(args[0], args[1:]...)] *)
Definition exec_Command (args : list string) : Cmd :=
  {| Args := args; Env := []; Stdout := None; Stderr := None; Process := None |}.

Definition with_output (out err : File) (c : Cmd) : Cmd :=
  {| Args := Args c; Env := Env c; Stdout := Some out; Stderr := Some err;
     Process := Process c |}.

Definition with_Env (env : list string) (c : Cmd) : Cmd :=
  {| Args := Args c; Env := env; Stdout := Stdout c; Stderr := Stderr c;
     Process := Process c |}.

Definition with_Process (pid : nat) (c : Cmd) : Cmd :=
  {| Args := Args c; Env := Env c; Stdout := Stdout c; Stderr := Stderr c;
     Process := Some pid |}.

(** What the operating system answers during one iteration: the error of
    [os.Pipe()], if any, and the result of [cmd.Start()]. *)
Record os_answers := {
  pipe_err : option string;
  start : string + nat          (* the error, or the pid of the new process *)
}.

(** The effects of the program, in the order it performs them. *)
Inductive action :=
| Lock                                  (* run.Lock() *)
| Unlock                                (* run.Unlock() *)
| SetRunId (id : Z)                     (* run.id++ stored id *)
| Kill (c : Cmd)                        (* c.Process.Kill() *)
| Pipe                                  (* os.Pipe() *)
| Close (f : File)                      (* r.Close(), w.Close() *)
| Start (c : Cmd)                       (* c.Start() *)
| Win (c : Acme.call)                   (* a call on win *)
| Go_relay (id : Z) (c : Cmd)           (* go func() {...}() in runner *)
| Go_wait (c : Cmd)                     (* go func() { cmd.Wait() }() in termRunner *)
| Fatal (msg : string).                 (* log.Fatal(msg) *)

(** The state shared by the goroutines: [run.id] and the window. *)
Record World := { run_id : Z; win : Acme.Win }.

(** [run.id] is zero when the program starts. *)
Definition world0 : World := {| run_id := 0; win := Acme.new |}.

(** State and log: a computation maps a world to its value, the world it
    leaves and the actions it performed. *)
Definition M (A : Type) : Type := World -> A * World * list action.

Definition ret {A} (a : A) : M A := fun w => (a, w, []).

Definition bind {A B} (m : M A) (f : A -> M B) : M B :=
  fun w =>
    let '(a, w1, t1) := m w in
    let '(b, w2, t2) := f a w1 in
    (b, w2, (t1 ++ t2)%list).

Declare Scope go_scope.
Delimit Scope go_scope with go.
Notation "x <- m ;; k" := (bind m (fun x => k))
  (at level 61, m at next level, right associativity) : go_scope.
Notation "m ;; k" := (bind m (fun _ => k))
  (at level 61, right associativity) : go_scope.
Open Scope go_scope.

Definition value {A} (r : A * World * list action) : A := fst (fst r).
Definition world {A} (r : A * World * list action) : World := snd (fst r).
Definition log {A} (r : A * World * list action) : list action := snd r.

Definition emit (a : action) : M unit := fun w => (tt, w, [a]).

Definition get_run_id : M Z := fun w => (run_id w, w, []).

Definition incr_run_id : M unit :=
  fun w =>
    let id := Go.incr (run_id w) in
    (tt, {| run_id := id; win := win w |}, [SetRunId id]).

Definition win_call (c : Acme.call) : M unit :=
  fun w => (tt, {| run_id := run_id w; win := Acme.apply c (win w) |}, [Win c]).

Definition when (b : bool) (m : M unit) : M unit := if b then m else ret tt.

(** ** The supervisors *)

(** How one turn of a [for event := range needrun] loop ends: at the next
    turn, with the value of [lastcmd], or with the process gone. *)
Inductive turn := Next (lastcmd : option Cmd) | Exited.

Section Supervisor.

Variable args : list string.          (* var args []string *)
Variable environ : list string.       (* os.Environ() *)

Definition cmdline : string := Go.Join args " ".

(** The header [runner] writes at the top of the body. *)
Definition header : string := "$ " ++ cmdline ++ "
".

(** The line [runner] and its relay write for an error. *)
Definition errline (err : string) : string := cmdline ++ ": " ++ err ++ "
".

Definition kill_last (lastcmd : option Cmd) : M unit :=
  match lastcmd with
  | Some c => emit (Kill c)
  | None => ret tt
  end.

(** The body of the loop of [runner] (main.go, lines 159 to 212), up to
    the [go] statement. *)
Definition runner_body (lastcmd : option Cmd) (event : signal)
    (os : os_answers) : M turn :=
  emit Lock ;;
  incr_run_id ;;
  id <- get_run_id ;;
  emit Unlock ;;
  kill_last lastcmd ;;
  let cmd := exec_Command args in
  emit Pipe ;;
  match pipe_err os with
  | Some err => emit (Fatal err) ;; ret Exited
  | None =>
      win_call (Acme.Addr ",") ;;
      win_call (Acme.Write_ "data" "") ;;
      win_call (Acme.Ctl "clean") ;;
      win_call (Acme.Fprintf "body" header) ;;
      let cmd := with_Env (envOf environ event) (with_output pipe_w pipe_w cmd) in
      emit (Start cmd) ;;
      match start os with
      | inl err =>
          emit (Close pipe_r) ;;
          emit (Close pipe_w) ;;
          win_call (Acme.Fprintf "body" (errline err)) ;;
          ret (Next None)
      | inr pid =>
          let cmd := with_Process pid cmd in
          emit (Close pipe_w) ;;
          emit (Go_relay id cmd) ;;
          ret (Next (Some cmd))
      end
  end.

(** The body of the loop of [termRunner] (main.go, lines 138 to 152). *)
Definition termRunner_body (lastcmd : option Cmd) (event : signal)
    (os : os_answers) : M turn :=
  kill_last lastcmd ;;
  let cmd := exec_Command args in
  let cmd := with_Env (envOf environ event) (with_output os_Stdout os_Stderr cmd) in
  emit (Start cmd) ;;
  match start os with
  | inl _ => ret (Next None)
  | inr pid =>
      let cmd := with_Process pid cmd in
      emit (Go_wait cmd) ;;
      ret (Next (Some cmd))
  end.

(** *** The relay goroutine of [runner] (main.go, lines 187 to 212) *)

(** One turn of its read loop, after [r.Read(buf)] returned the bytes
    [chunk] without an error. *)
Definition relay_chunk (id : Z) (chunk : string) : M unit :=
  emit Lock ;;
  cur <- get_run_id ;;
  when (id =? cur)%Z (win_call (Acme.Write_ "body" chunk)) ;;
  emit Unlock.

(** After the read loop: [cmd.Wait()] returned [werr]. *)
Definition relay_wait (id : Z) (werr : option string) : M unit :=
  match werr with
  | Some err =>
      emit Lock ;;
      cur <- get_run_id ;;
      when (id =? cur)%Z (win_call (Acme.Fprintf "body" (errline err))) ;;
      emit Unlock
  | None => ret tt
  end.

(** The five statements that end the goroutine. *)
Definition relay_done : M unit :=
  win_call (Acme.Fprintf "body" "$
") ;;
  win_call (Acme.Fprintf "addr" "#0") ;;
  win_call (Acme.Ctl "dot=addr") ;;
  win_call (Acme.Ctl "show") ;;
  win_call (Acme.Ctl "clean").

(** The goroutine from end of data on the pipe to its end. *)
Definition relay_exit (id : Z) (werr : option string) : M unit :=
  relay_wait id werr ;;
  relay_done.

(** *** The windowed program as a whole

    The goroutines interleave.  What happens next is one of: [runner]
    receives a signal and runs one turn, a relay reads a chunk, a relay
    reaches the end of its pipe.  A turn of [runner] is taken as one
    step: only its first three statements touch [run.id], under the lock,
    so a relay step that falls inside a turn sees [run.id] as a step
    placed before the turn or after it does. *)
Inductive happening :=
| Restart (event : signal) (os : os_answers)
| Chunk (id : Z) (chunk : string)
| Eof (id : Z) (werr : option string).

Record Sys := {
  shared : World;
  lastcmd_ : option Cmd;       (* var lastcmd *exec.Cmd, of runner *)
  exited : bool;               (* after log.Fatal *)
  history : list action
}.

Definition sys0 : Sys :=
  {| shared := world0; lastcmd_ := None; exited := false; history := [] |}.

Definition sys_step (s : Sys) (h : happening) : Sys :=
  if exited s then s else
  match h with
  | Restart event os =>
      let r := runner_body (lastcmd_ s) event os (shared s) in
      match value r with
      | Next l =>
          {| shared := world r; lastcmd_ := l; exited := false;
             history := (history s ++ log r)%list |}
      | Exited =>
          {| shared := world r; lastcmd_ := lastcmd_ s; exited := true;
             history := (history s ++ log r)%list |}
      end
  | Chunk id chunk =>
      let r := relay_chunk id chunk (shared s) in
      {| shared := world r; lastcmd_ := lastcmd_ s; exited := false;
         history := (history s ++ log r)%list |}
  | Eof id werr =>
      let r := relay_exit id werr (shared s) in
      {| shared := world r; lastcmd_ := lastcmd_ s; exited := false;
         history := (history s ++ log r)%list |}
  end.

Definition sys_run (s : Sys) (hs : list happening) : Sys :=
  fold_left sys_step hs s.

End Supervisor.

(** The generations the relays were started with, in order of start. *)
Fixpoint relay_ids (t : list action) : list Z :=
  match t with
  | [] => []
  | Go_relay id _ :: t' => id :: relay_ids t'
  | _ :: t' => relay_ids t'
  end.

Definition is_restart (h : happening) : bool :=
  match h with Restart _ _ => true | _ => false end.

Definition restarts (hs : list happening) : Z :=
  Z.of_nat (length (filter is_restart hs)).

(** Position of the first action that satisfies [p]. *)
Fixpoint first_index (p : action -> bool) (t : list action) : option nat :=
  match t with
  | [] => None
  | a :: t' =>
      if p a then Some 0
      else match first_index p t' with
           | Some n => Some (S n)
           | None => None
           end
  end.

Definition is_Kill (a : action) : bool :=
  match a with Kill _ => true | _ => false end.
Definition is_SetRunId (a : action) : bool :=
  match a with SetRunId _ => true | _ => false end.
Definition is_Start (a : action) : bool :=
  match a with Start _ => true | _ => false end.
Definition is_Go (a : action) : bool :=
  match a with Go_relay _ _ | Go_wait _ => true | _ => false end.
Definition is_Win (a : action) : bool :=
  match a with Win _ => true | _ => false end.
Definition is_body_write (a : action) : bool :=
  match a with
  | Win (Acme.Write_ f _) | Win (Acme.Fprintf f _) => f =? "body"
  | _ => false
  end.

Definition is_Fatal (a : action) : bool :=
  match a with Fatal _ => true | _ => false end.

(** The values [run.id++] stored, in order. *)
Fixpoint set_ids (t : list action) : list Z :=
  match t with
  | [] => []
  | SetRunId id :: t' => id :: set_ids t'
  | _ :: t' => set_ids t'
  end.

(** The signal sent to the process of the previous turn, if there is one. *)
Definition kills (lastcmd : option Cmd) : list action :=
  match lastcmd with
  | Some c => [Kill c]
  | None => []
  end.

(** The four calls with which [runner] resets the window. *)
Definition reset_calls (args : list string) : list action :=
  [Win (Acme.Addr ","); Win (Acme.Write_ "data" ""); Win (Acme.Ctl "clean");
   Win (Acme.Fprintf "body" (header args))].

(** The window after these four calls. *)
Definition reset_window (args : list string) (w : Acme.Win) : Acme.Win :=
  Acme.apply (Acme.Fprintf "body" (header args))
    (Acme.apply (Acme.Ctl "clean")
       (Acme.apply (Acme.Write_ "data" "") (Acme.apply (Acme.Addr ",") w))).

(** The command as it is when [Start] is called on it. *)
Definition prepared (args environ : list string) (event : signal)
    (out err : File) : Cmd :=
  with_Env (envOf environ event) (with_output out err (exec_Command args)).

(** The generations 1, 2, ..., n. *)
Definition ids_upto (n : Z) : list Z := map Z.of_nat (seq 1 (Z.to_nat n)).

(** What holds of the windowed program at every moment: [run.id] has
    taken the values 1, 2, ... up to its present one, in this order, and
    the relays were started with strictly increasing generations, none
    above the present one. *)
Record Inv (s : Sys) : Prop := {
  inv_nonneg : (0 <= run_id (shared s))%Z;
  inv_set : set_ids (history s) = ids_upto (run_id (shared s));
  inv_sorted : StronglySorted Z.lt (relay_ids (history s));
  inv_bound :
    Forall (fun g => (1 <= g <= run_id (shared s))%Z) (relay_ids (history s))
}.

(** A process of an earlier turn, for the examples. *)
Definition c0 : Cmd := with_Process 4 (prepared ["go"; "test"] [] None pipe_w pipe_w).

(** [a] happens before [b]: both occur and [a]'s first occurrence is first. *)
Definition precedes (p q : action -> bool) (t : list action) : bool :=
  match first_index p t, first_index q t with
  | Some i, Some j => Nat.ltb i j
  | _, _ => false
  end.

Definition ok_answers (pid : nat) : os_answers :=
  {| pipe_err := None; start := inr pid |}.
Definition failing_start (err : string) : os_answers :=
  {| pipe_err := None; start := inl err |}.


(** ** Definitions used to state the properties *)

(** What the goroutines do to [needrun] after [main] has created it. *)
Inductive chan_op :=
| Offer (x : signal)        (* select { case needrun <- x: default: } *)
| Take.                     (* the receive of range needrun *)

Definition chan_step (ch : Chan.t signal) (o : chan_op) : Chan.t signal :=
  match o with
  | Offer x => fst (Chan.select_send_default ch x)
  | Take =>
      match Chan.recv ch with
      | Chan.Ready (_, ch') => ch'
      | Chan.Blocks => ch
      end
  end.

Definition chan_run (ch : Chan.t signal) (ops : list chan_op) : Chan.t signal :=
  fold_left chan_step ops ch.

(** "An event qualifies only if it is a content-committed event, its
    subject path lies under the watched root and its base name matches
    the inclusion pattern". *)
Definition qualifies_spec (re : Go.Regexp) (pwd : string) (event : LogEvent) : bool :=
  (Op event =? "put") && Go.HasPrefix (Name event) pwd
  && Go.MatchString re (Go.Base (Name event)).

(** The key of an environment entry, as [envOf] reads it. *)
Definition key_of (v : string) : string := Go.index0 (Go.Split v "="%char).

(** The text after the first [=] of an entry. *)
Fixpoint value_of (v : string) : string :=
  match v with
  | EmptyString => ""
  | String c v' => if Ascii.eqb c "="%char then v' else value_of v'
  end.

(** "The ambient environment with the three reserved keys removed". *)
Definition without_reserved (E : list string) : list string :=
  filter (fun v => negb (reserved (key_of v))) E.

(** "Those same three keys re-added": the subject path twice, the window
    id in decimal. *)
Definition readded (p : string) (w : Z) : list string :=
  ["samfile=" ++ p; "%=" ++ p; "winid=" ++ Go.fmt_d w].

(** The value a process started with environment [env] sees for [k]: of
    the entries with that key, [os/exec] keeps the last. *)
Definition getenv (k : string) (env : list string) : option string :=
  option_map value_of (find (fun v => key_of v =? k) (rev env)).

(** ** The loops as wholes *)

(** What [l.Read()] returns in the loop of [main]. *)
Inductive read_result := ReadOk (event : LogEvent) | ReadErr (msg : string).

(** The loop of [main] (main.go, lines 74 to 86) over what the log
    delivers: the channel, the total time slept in milliseconds, and the
    message of [log.Fatal] if a read failed. *)
Fixpoint main_loop (re : Go.Regexp) (pwd : string) (reads : list read_result)
    (needrun : Chan.t signal) (slept : Z) : Chan.t signal * Z * option string :=
  match reads with
  | [] => (needrun, slept, None)
  | ReadErr msg :: _ => (needrun, slept, Some msg)
  | ReadOk event :: rest =>
      let '(ch, d) := main_step re pwd event needrun in
      main_loop re pwd rest ch (slept + d)%Z
  end.

(** The events read before the first failed read. *)
Fixpoint read_before_error (reads : list read_result) : list LogEvent :=
  match reads with
  | ReadOk event :: rest => event :: read_before_error rest
  | _ => []
  end.

(** [acme.Event], the fields the program or acme looks at. *)
Record Event := { C1 : ascii; C2 : ascii; Q0 : Z; Q1 : Z; Text : string }.

(** What [events] does besides offering a signal. *)
Inductive events_action :=
| Ctl_delete                      (* win.Ctl("delete") *)
| WriteEvent (e : Event)          (* win.WriteEvent(e) *)
| Exit (code : Z).                (* os.Exit(code) *)

(** [case 'x', 'X'] *)
Definition is_execute (e : Event) : bool :=
  Ascii.eqb (C2 e) "x"%char || Ascii.eqb (C2 e) "X"%char.

(** The body of the loop of [events] (main.go, lines 91 to 104). *)
Definition events_body (e : Event) (needrun : Chan.t signal)
    : Chan.t signal * list events_action :=
  if is_execute e then
    if Text e =? "Get" then (events_Get needrun, [])
    else if Text e =? "Del" then (needrun, [Ctl_delete; WriteEvent e])
    else (needrun, [WriteEvent e])
  else (needrun, [WriteEvent e]).

(** [events] over the events the window sends until its channel closes. *)
Fixpoint events (es : list Event) (needrun : Chan.t signal)
    : Chan.t signal * list events_action :=
  match es with
  | [] => (needrun, [Exit 0])
  | e :: rest =>
      let '(ch, t) := events_body e needrun in
      let '(ch', t') := events rest ch in
      (ch', (t ++ t')%list)
  end.

Definition is_Get (e : Event) : bool := is_execute e && (Text e =? "Get").
Definition is_Del (e : Event) : bool := is_execute e && (Text e =? "Del").

Fixpoint written_back (t : list events_action) : list Event :=
  match t with
  | [] => []
  | WriteEvent e :: t' => e :: written_back t'
  | _ :: t' => written_back t'
  end.

Fixpoint deletes (t : list events_action) : nat :=
  match t with
  | [] => 0
  | Ctl_delete :: t' => S (deletes t')
  | _ :: t' => deletes t'
  end.

Section Loops.

Variable args : list string.
Variable environ : list string.

(** [runner] from a given [lastcmd], over the signals it receives and
    what the operating system answers in each turn.  It stops at
    [log.Fatal] and otherwise waits for the next signal. *)
Fixpoint runner_from (lastcmd : option Cmd) (inputs : list (signal * os_answers))
    : M turn :=
  match inputs with
  | [] => ret (Next lastcmd)
  | (event, os) :: rest =>
      t <- runner_body args environ lastcmd event os ;;
      match t with
      | Next l => runner_from l rest
      | Exited => ret Exited
      end
  end.

(** [runner]: [var lastcmd *exec.Cmd] starts as nil. *)
Definition runner (inputs : list (signal * os_answers)) : M turn :=
  runner_from None inputs.

Fixpoint termRunner_from (lastcmd : option Cmd) (inputs : list (signal * os_answers))
    : M turn :=
  match inputs with
  | [] => ret (Next lastcmd)
  | (event, os) :: rest =>
      t <- termRunner_body args environ lastcmd event os ;;
      match t with
      | Next l => termRunner_from l rest
      | Exited => ret Exited
      end
  end.

Definition termRunner (inputs : list (signal * os_answers)) : M turn :=
  termRunner_from None inputs.

(** The read loop of a relay, over the chunks [r.Read] returns before it
    reports an error. *)
Fixpoint relay_reads (id : Z) (chunks : list string) : M unit :=
  match chunks with
  | [] => ret tt
  | chunk :: rest => relay_chunk id chunk ;; relay_reads id rest
  end.

(** The whole goroutine. *)
Definition relay (id : Z) (chunks : list string) (werr : option string) : M unit :=
  relay_reads id chunks ;; relay_exit args id werr.

End Loops.

(** The process a supervisor tracks after a turn. *)
Definition tracked (t : turn) : option Cmd :=
  match t with
  | Next l => l
  | Exited => None
  end.

Definition as_list {A} (o : option A) : list A :=
  match o with
  | Some a => [a]
  | None => []
  end.

(** The commands sent a kill, in order. *)
Fixpoint killed (t : list action) : list Cmd :=
  match t with
  | [] => []
  | Kill c :: t' => c :: killed t'
  | _ :: t' => killed t'
  end.

(** The commands handed to a goroutine after a successful start, in order. *)
Fixpoint started (t : list action) : list Cmd :=
  match t with
  | [] => []
  | Go_relay _ c :: t' => c :: started t'
  | Go_wait c :: t' => c :: started t'
  | _ :: t' => started t'
  end.

Definition count (p : action -> bool) (t : list action) : nat :=
  length (filter p t).

Definition is_Pipe (a : action) : bool :=
  match a with Pipe => true | _ => false end.
Definition is_Close_r (a : action) : bool :=
  match a with Close pipe_r => true | _ => false end.
Definition is_Close_w (a : action) : bool :=
  match a with Close pipe_w => true | _ => false end.
Definition is_Go_relay (a : action) : bool :=
  match a with Go_relay _ _ => true | _ => false end.

(** The texts written to the body of the window, in order. *)
Fixpoint body_writes (t : list action) : list string :=
  match t with
  | [] => []
  | Win (Acme.Write_ f d) :: t' | Win (Acme.Fprintf f d) :: t' =>
      if f =? "body" then d :: body_writes t' else body_writes t'
  | _ :: t' => body_writes t'
  end.

(** ** The start of [main] *)

(** What the world answers while [main] sets up. *)
Record setup_answers := {
  compiled : option Go.Regexp;        (* None: the pattern does not compile *)
  acme_New_err : option string;
  acme_Log_err : option string
}.

Inductive setup_action :=
| Usage (msg : string)                (* fmt.Fprintf(os.Stderr, msg) *)
| OsExit (code : Z)                   (* os.Exit(code) *)
| Panic                               (* regexp.MustCompile panics *)
| Send_nil                            (* needrun <- nil *)
| Go_termRunner
| Go_events
| Go_runner
| Acme_New
| Acme_Log
| Setup_win (c : Acme.call)
| Setup_fatal (msg : string).

Definition usage : list setup_action :=
  [Usage "usage: Watch [-only pattern] cmd args...
"; OsExit 2].

(** [l, err := acme.Log()] and the entry into the loop, after [pre]. *)
Definition open_log (ans : setup_answers) (pre : list setup_action)
    (re : Go.Regexp) : list setup_action * option Go.Regexp :=
  match acme_Log_err ans with
  | Some err => ((pre ++ [Acme_Log; Setup_fatal err])%list, None)
  | None => ((pre ++ [Acme_Log])%list, Some re)
  end.

(** [main] up to its loop (main.go, lines 45 to 73), after [flag.Parse]
    has left the command in [args] and [-t] in [term]: what [main] itself
    does, in order, and the pattern with which it enters the loop, if it
    does.  The goroutines it starts run from then on, so what [needrun]
    holds when the loop is entered is not for [main] to say: the
    supervisor may have received the first signal by then. *)
Definition main_setup (args : list string) (term : bool) (pwd : string)
    (ans : setup_answers) : list setup_action * option Go.Regexp :=
  match args with
  | [] => (usage, None)
  | _ :: _ =>
      match compiled ans with
      | None => ([Panic], None)
      | Some re =>
          match Chan.send needrun0 None with
          | Chan.Blocks => ([Send_nil], None)
          | Chan.Ready _ =>
              if term then open_log ans [Send_nil; Go_termRunner] re
              else
                match acme_New_err ans with
                | Some err => ([Send_nil; Acme_New; Setup_fatal err], None)
                | None =>
                    open_log ans
                      [Send_nil; Acme_New;
                       Setup_win (Acme.Name_ (pwd ++ "/+watch"));
                       Setup_win (Acme.Ctl "clean");
                       Setup_win (Acme.Fprintf "tag" "Get ");
                       Go_events; Go_runner]
                      re
                end
          end
      end
  end.

Definition is_goroutine (a : setup_action) : bool :=
  match a with Go_termRunner | Go_events | Go_runner => true | _ => false end.

(** What [os/exec] hands to the started process: [cmd.Env], or the
    environment of Watch itself when [cmd.Env] is nil.  The slice [envOf]
    returns is nil exactly when it is empty: [filtered] is declared
    without a value and only [append] gives it one. *)
Definition child_environ (environ : list string) (c : Cmd) : list string :=
  match Env c with
  | [] => environ
  | _ :: _ => Env c
  end.

(** The window after the calls of a log, made in the order of the log. *)
Fixpoint replay (t : list action) (w : Acme.Win) : Acme.Win :=
  match t with
  | [] => w
  | Win c :: t' => replay t' (Acme.apply c w)
  | _ :: t' => replay t' w
  end.

(** [t] is an interleaving of [a] and [b]: the actions of both, each
    list in its own order. *)
Inductive interleaving : list action -> list action -> list action -> Prop :=
| il_done : interleaving [] [] []
| il_left x a b t : interleaving a b t -> interleaving (x :: a) b (x :: t)
| il_right x a b t : interleaving a b t -> interleaving a (x :: b) (x :: t).

Definition is_supervisor (a : setup_action) : bool :=
  match a with Go_termRunner | Go_runner => true | _ => false end.
Definition is_Setup_win (a : setup_action) : bool :=
  match a with Setup_win _ | Acme_New | Go_events => true | _ => false end.

(** The message of the first failed read, if any. *)
Fixpoint read_error (reads : list read_result) : option string :=
  match reads with
  | [] => None
  | ReadErr msg :: _ => Some msg
  | ReadOk _ :: rest => read_error rest
  end.

(** The channel [needrun] with nothing pending, and with [x] pending. *)
Definition idle : Chan.t signal := {| Chan.cap := 1; Chan.queue := [] |}.
Definition pending (x : signal) : Chan.t signal :=
  {| Chan.cap := 1; Chan.queue := [x] |}.

(** The texts of a list, one after the other. *)
Fixpoint joined (l : list string) : string :=
  match l with
  | [] => ""
  | x :: l' => x ++ joined l'
  end.

(** * Properties *)

(** ** The channel: sends that cannot block *)

Lemma chan_step_cap ch o : Chan.cap (chan_step ch o) = Chan.cap ch.
Proof.
  destruct o as [x|]; cbn.
  - unfold Chan.select_send_default, Chan.send.
    destruct (Nat.ltb _ _); reflexivity.
  - unfold Chan.recv. destruct (Chan.queue ch); reflexivity.
Qed.

Lemma chan_step_bounded ch o :
  length (Chan.queue ch) <= Chan.cap ch ->
  length (Chan.queue (chan_step ch o)) <= Chan.cap ch.
Proof.
  intros Hle. destruct o as [x|]; cbn.
  - unfold Chan.select_send_default, Chan.send.
    destruct (Nat.ltb_spec (length (Chan.queue ch)) (Chan.cap ch)); cbn.
    + rewrite length_app. cbn. lia.
    + exact Hle.
  - unfold Chan.recv. destruct ch as [c [|y q]]; cbn in *; lia.
Qed.

Lemma chan_run_bounded ops : forall ch,
  length (Chan.queue ch) <= Chan.cap ch ->
  Chan.cap (chan_run ch ops) = Chan.cap ch /\
  length (Chan.queue (chan_run ch ops)) <= Chan.cap ch.
Proof.
  induction ops as [|o ops IH]; intros ch Hle; cbn.
  - split; [reflexivity | exact Hle].
  - pose proof (chan_step_bounded ch o Hle) as Hb.
    pose proof (chan_step_cap ch o) as Hc.
    destruct (IH (chan_step ch o)) as [H1 H2]; [rewrite Hc; exact Hb|].
    unfold chan_run in *. split; [congruence | lia].
Qed.

Lemma needrun_shape ops :
  let ch := chan_run needrun0 ops in
  ch = {| Chan.cap := 1; Chan.queue := [] |} \/
  exists y, ch = {| Chan.cap := 1; Chan.queue := [y] |}.
Proof.
  cbn. destruct (chan_run_bounded ops needrun0) as [Hc Hl]; [cbn; lia|].
  destruct (chan_run needrun0 ops) as [c q]. cbn in *. subst c.
  destruct q as [|y [|z q]]; cbn in Hl.
  - left; reflexivity.
  - right; exists y; reflexivity.
  - lia.
Qed.


Example main_first_send : Chan.send needrun0 None
  = Chan.Ready {| Chan.cap := 1; Chan.queue := [None] |}.
Proof. reflexivity. Qed.

Example burst_keeps_first :
  let e1 := {| ID := 1; Op := "put"; Name := "/w/a.go" |} in
  let e2 := {| ID := 2; Op := "put"; Name := "/w/b.go" |} in
  Chan.queue (chan_run needrun0 [Take; Offer (Some e1); Offer (Some e2); Offer None])
  = [Some e1].
Proof. reflexivity. Qed.

(** ** The environment of a run *)

Lemma envOf_filtered (E : list string) : forall acc,
  fold_left
    (fun filtered v =>
       let vv := Go.Split v "="%char in
       if reserved (Go.index0 vv) then filtered else (filtered ++ [v])%list)
    E acc
  = (acc ++ without_reserved E)%list.
Proof.
  induction E as [|v E IH]; intros acc; cbn.
  - now rewrite app_nil_r.
  - rewrite IH. unfold key_of.
    destruct (reserved (Go.index0 (Go.Split v "="%char))); cbn.
    + reflexivity.
    + now rewrite <- app_assoc.
Qed.

Lemma without_reserved_keys (E : list string) :
  Forall (fun v => reserved (key_of v) = false) (without_reserved E).
Proof.
  apply Forall_forall. intros v Hin.
  apply filter_In in Hin. destruct Hin as [_ H].
  now apply negb_true_iff in H.
Qed.

Lemma find_none_of_Forall {A} (p : A -> bool) (l : list A) :
  Forall (fun v => p v = false) l -> find p l = None.
Proof.
  induction 1 as [|v l Hv _ IH]; cbn; [reflexivity|].
  now rewrite Hv.
Qed.

Lemma find_filter_implied {A} (p q : A -> bool) (l : list A) :
  (forall v, p v = true -> q v = true) ->
  find p (filter q l) = find p l.
Proof.
  intros Himp. induction l as [|v l IH]; cbn; [reflexivity|].
  destruct (q v) eqn:Hq; cbn.
  - now rewrite IH.
  - destruct (p v) eqn:Hp; [|exact IH].
    apply Himp in Hp. congruence.
Qed.

Lemma rev_filter {A} (q : A -> bool) (l : list A) :
  rev (filter q l) = filter q (rev l).
Proof.
  induction l as [|v l IH]; cbn; [reflexivity|].
  rewrite filter_app. cbn. destruct (q v); cbn.
  - now rewrite IH.
  - now rewrite IH, app_nil_r.
Qed.

Lemma key_samfile p : key_of ("samfile=" ++ p) = "samfile".
Proof. reflexivity. Qed.

Lemma key_percent p : key_of ("%=" ++ p) = "%".
Proof. reflexivity. Qed.

Lemma key_winid p : key_of ("winid=" ++ p) = "winid".
Proof. reflexivity. Qed.

Lemma getenv_without_reserved k E :
  getenv k (without_reserved E) = if reserved k then None else getenv k E.
Proof.
  unfold getenv, without_reserved. rewrite rev_filter.
  destruct (reserved k) eqn:Hk.
  - rewrite find_none_of_Forall; [reflexivity|].
    apply Forall_forall. intros v Hin.
    apply filter_In in Hin. destruct Hin as [_ H].
    apply negb_true_iff in H.
    destruct (String.eqb_spec (key_of v) k); [congruence | reflexivity].
  - rewrite find_filter_implied; [reflexivity|].
    intros v Hv. apply String.eqb_eq in Hv. now rewrite Hv, Hk.
Qed.

Lemma envOf_None (E : list string) : envOf E None = without_reserved E.
Proof. unfold envOf. now rewrite envOf_filtered. Qed.

Lemma envOf_Some (E : list string) (c : LogEvent) :
  envOf E (Some c)
  = (without_reserved E ++ readded (Name c) (ID c))%list.
Proof. unfold envOf. now rewrite envOf_filtered. Qed.

(** C9. The environment built for a run is the ambient one without the
    entries whose key is [samfile], [%] or [winid]; with a context, three
    entries follow that give these keys the subject path, the subject path
    and the window id in decimal.  A process started with it sees exactly
    these values for the three keys (none without a context, whatever the
    ambient environment held) and the ambient value for every other key. *)
Theorem envOf_reserved_replaced (E : list string) (c : LogEvent) :
  envOf E None = without_reserved E /\
  envOf E (Some c)
  = (without_reserved E ++ readded (Name c) (ID c))%list /\
  Forall (fun v => reserved (key_of v) = false) (envOf E None) /\
  (forall k, getenv k (envOf E None) = if reserved k then None else getenv k E) /\
  (forall k, getenv k (envOf E (Some c)) =
     if k =? "samfile" then Some (Name c)
     else if k =? "%" then Some (Name c)
     else if k =? "winid" then Some (Go.fmt_d (ID c))
     else getenv k E).
Proof.
  split; [apply envOf_None|].
  split; [apply envOf_Some|].
  split; [rewrite envOf_None; apply without_reserved_keys|].
  split.
  - intros k. rewrite envOf_None. apply getenv_without_reserved.
  - intros k. rewrite envOf_Some.
    pose proof (getenv_without_reserved k E) as Hrest.
    unfold getenv, readded in *. rewrite rev_app_distr.
    cbn [rev app find]. rewrite key_winid, key_percent, key_samfile.
    rewrite (String.eqb_sym "winid" k), (String.eqb_sym "%" k),
      (String.eqb_sym "samfile" k).
    unfold reserved in Hrest.
    destruct (k =? "samfile") eqn:H1.
    + apply String.eqb_eq in H1. subst k. reflexivity.
    + destruct (k =? "%") eqn:H2.
      * apply String.eqb_eq in H2. subst k. reflexivity.
      * destruct (k =? "winid") eqn:H3; [reflexivity|].
        exact Hrest.
Qed.

Example envOf_with_context :
  envOf ["HOME=/h"; "samfile=/old"; "winid=3"; "%=/old"; "PATH=/bin"]
        (Some {| ID := 7; Op := "put"; Name := "/a/b.go" |})
  = ["HOME=/h"; "PATH=/bin"; "samfile=/a/b.go"; "%=/a/b.go"; "winid=7"].
Proof. reflexivity. Qed.

Example envOf_without_context :
  envOf ["HOME=/h"; "samfile=/old"; "winid=3"; "%=/old"; "PATH=/bin"] None
  = ["HOME=/h"; "PATH=/bin"].
Proof. reflexivity. Qed.

(** ** Which log events ask for a run *)

Lemma prefix_of_empty (pwd : string) : pwd <> "" -> Go.HasPrefix "" pwd = false.
Proof. destruct pwd; [congruence | reflexivity]. Qed.

(** The older variant of [main] filters as the specification says, for
    every working directory that [os.Getwd] can return. *)
Lemma qualifies_base_spec (re : Go.Regexp) (pwd : string) (event : LogEvent) :
  pwd <> "" -> qualifies_base re pwd event = qualifies_spec re pwd event.
Proof.
  intros Hpwd. unfold qualifies_base, qualifies_spec.
  destruct (String.eqb_spec (Name event) "") as [E|E]; cbn.
  - rewrite E, (prefix_of_empty pwd Hpwd). now rewrite andb_false_r.
  - reflexivity.
Qed.

Lemma qualifies_base_spec_witness :
  qualifies_base (Go.re_anchored_suffix ".go") "/w"
    {| ID := 1; Op := "put"; Name := "/w/main_test.go" |} = true.
Proof.
  rewrite (qualifies_base_spec (Go.re_anchored_suffix ".go") "/w"); [|discriminate].
  reflexivity.
Defined.

(** An event that does not qualify leaves the channel alone and costs no
    sleep, in both variants. *)
Lemma main_step_ignores re pwd event needrun :
  qualifies re pwd event = false -> main_step re pwd event needrun = (needrun, 0%Z).
Proof. intros H. unfold main_step. now rewrite H. Qed.

Lemma main_step_ignores_witness :
  main_step Go.re_any "/w" {| ID := 1; Op := "del"; Name := "/w/a.go" |} needrun0
  = (needrun0, 0%Z).
Proof. apply main_step_ignores. reflexivity. Defined.

(** C7. With [-only '^main'] and working directory [/w], a put of
    [/w/main.go] qualifies by the three conditions of the claim: its base
    name [main.go] matches.  [main] hands the pattern the whole path,
    which does not match, and so treats the event as not qualifying: no
    signal is offered.  The older variant of [main] accepts it.  The
    other way round, with [-only '^/w'] a put of [/w/README.md] does not
    qualify by the claim, and [main] offers a signal for it. *)
Theorem only_pattern_matched_against_whole_path :
  let re := Go.re_anchored_prefix "main" in
  let event := {| ID := 1; Op := "put"; Name := "/w/main.go" |} in
  let re' := Go.re_anchored_prefix "/w" in
  let event' := {| ID := 1; Op := "put"; Name := "/w/README.md" |} in
  Go.Base (Name event) = "main.go" /\
  qualifies_spec re "/w" event = true /\
  qualifies re "/w" event = false /\
  main_step re "/w" event needrun0 = (needrun0, 0%Z) /\
  qualifies_base re "/w" event = true /\
  main_step_base re "/w" event needrun0
  = ({| Chan.cap := 1; Chan.queue := [Some event] |}, 100%Z) /\
  qualifies_spec re' "/w" event' = false /\
  qualifies re' "/w" event' = true /\
  main_step re' "/w" event' needrun0
  = ({| Chan.cap := 1; Chan.queue := [Some event'] |}, 100%Z) /\
  qualifies_base re' "/w" event' = false.
Proof. cbn. repeat split; reflexivity. Qed.

Example only_go_files :
  let re := Go.re_anchored_suffix ".go" in
  qualifies re "/w" {| ID := 1; Op := "put"; Name := "/w/main_test.go" |} = true /\
  qualifies re "/w" {| ID := 1; Op := "put"; Name := "/w/README.md" |} = false.
Proof. split; reflexivity. Qed.

(** ** The window *)

Lemma substring_zero_length (s : string) : forall n, substring n 0 s = "".
Proof.
  induction s as [|c s IH]; intros [|n]; cbn; try reflexivity.
  apply IH.
Qed.

(** [win.Addr(","); win.Write("data", nil)] leaves an empty body. *)
Lemma erase_body (w : Acme.Win) :
  Acme.body (Acme.apply (Acme.Write_ "data" "") (Acme.apply (Acme.Addr ",") w)) = "".
Proof.
  cbn. rewrite Nat.sub_diag, !substring_zero_length. reflexivity.
Qed.

Lemma body_after_clean c (w : Acme.Win) :
  Acme.body (Acme.apply (Acme.Ctl c) w) = Acme.body w.
Proof.
  cbn. unfold Acme.ctl.
  destruct (c =? "clean"); [reflexivity|].
  destruct (c =? "dot=addr"); reflexivity.
Qed.

(** ** The relay goroutine *)

Ltac run_go :=
  cbv [runner_body termRunner_body relay_chunk relay_wait relay_done relay_exit
       kill_last bind ret emit get_run_id incr_run_id win_call when
       value world log fst snd run_id win].

Lemma relay_chunk_eq (id : Z) (chunk : string) (w : World) :
  relay_chunk id chunk w =
  if (id =? run_id w)%Z
  then (tt, {| run_id := run_id w;
               win := Acme.apply (Acme.Write_ "body" chunk) (win w) |},
        [Lock; Win (Acme.Write_ "body" chunk); Unlock])
  else (tt, w, [Lock; Unlock]).
Proof.
  destruct w as [cur wn]. run_go.
  destruct (id =? cur)%Z; reflexivity.
Qed.

(** C1. A relay started with generation [id] that has read [chunk] takes
    the lock, compares [id] with [run.id] and releases the lock; the chunk
    is written to the body of the window exactly when the two are equal,
    and then it is appended as it is.  When they differ nothing is
    written: the window and [run.id] are as before. *)
Theorem relay_chunk_forwarded_iff_current (id : Z) (chunk : string) (w : World) :
  let r := relay_chunk id chunk w in
  (In (Win (Acme.Write_ "body" chunk)) (log r) <-> id = run_id w) /\
  (existsb is_Win (log r) = true <-> id = run_id w) /\
  log r = (if (id =? run_id w)%Z
           then [Lock; Win (Acme.Write_ "body" chunk); Unlock]
           else [Lock; Unlock]) /\
  Acme.body (win (world r))
  = (if (id =? run_id w)%Z then Acme.body (win w) ++ chunk else Acme.body (win w)) /\
  (id <> run_id w -> world r = w) /\
  run_id (world r) = run_id w.
Proof.
  cbn zeta. rewrite relay_chunk_eq.
  destruct (Z.eqb_spec id (run_id w)) as [E|E]; cbn.
  - split; [tauto|]. split; [tauto|]. split; [reflexivity|].
    split; [reflexivity|]. split; [congruence | reflexivity].
  - split; [split; [intros [H|[H|[]]]; discriminate | tauto]|].
    split; [split; [discriminate | tauto]|].
    split; [reflexivity|]. split; [reflexivity|].
    split; [reflexivity | reflexivity].
Qed.

Lemma relay_chunk_forwarded_iff_current_witness :
  world (relay_chunk 1 "late" {| run_id := 2; win := Acme.new |})
  = {| run_id := 2; win := Acme.new |}.
Proof.
  apply (relay_chunk_forwarded_iff_current 1 "late" {| run_id := 2; win := Acme.new |}).
  cbn. lia.
Defined.

Lemma relay_done_eq (w : World) :
  relay_done w =
  (tt,
   {| run_id := run_id w;
      win := Acme.apply (Acme.Ctl "clean")
               (Acme.apply (Acme.Ctl "show")
                  (Acme.apply (Acme.Ctl "dot=addr")
                     (Acme.apply (Acme.Fprintf "addr" "#0")
                        (Acme.apply (Acme.Fprintf "body" "$
") (win w))))) |},
   [Win (Acme.Fprintf "body" "$
"); Win (Acme.Fprintf "addr" "#0"); Win (Acme.Ctl "dot=addr");
    Win (Acme.Ctl "show"); Win (Acme.Ctl "clean")]).
Proof. destruct w. reflexivity. Qed.

(** The end of a relay does not look at its generation: the marker and
    the calls that follow it are made whatever [id] and [run.id] are. *)
Lemma relay_exit_always_marks (args : list string) (id : Z)
    (werr : option string) (w : World) :
  let r := relay_exit args id werr w in
  filter is_Win (log r)
  = ((if (id =? run_id w)%Z
      then match werr with
           | Some err => [Win (Acme.Fprintf "body" (errline args err))]
           | None => []
           end
      else [])
     ++ [Win (Acme.Fprintf "body" "$
"); Win (Acme.Fprintf "addr" "#0"); Win (Acme.Ctl "dot=addr");
         Win (Acme.Ctl "show"); Win (Acme.Ctl "clean")])%list /\
  run_id (world r) = run_id w.
Proof.
  destruct w as [cur wn]. destruct werr as [err|]; run_go.
  - destruct (id =? cur)%Z; split; reflexivity.
  - destruct (id =? cur)%Z; split; reflexivity.
Qed.

(** C2. A relay started with generation 1 reaches the end of its pipe
    after [runner] has moved on to generation 2 and written the header of
    the new run.  Its error line is held back, but the marker [$] is
    appended to the body of the new run, the address and the selection go
    to the start and the window is marked clean. *)
Theorem stale_relay_writes_marker :
  let w := {| run_id := 2;
              win := Acme.apply (Acme.Fprintf "body" (header ["go"; "test"])) Acme.new |} in
  let r := relay_exit ["go"; "test"] 1 (Some "signal: killed") w in
  Acme.body (win w) = "$ go test
" /\
  Acme.clean (win w) = false /\
  log r = [Lock; Unlock;
           Win (Acme.Fprintf "body" "$
"); Win (Acme.Fprintf "addr" "#0"); Win (Acme.Ctl "dot=addr");
           Win (Acme.Ctl "show"); Win (Acme.Ctl "clean")] /\
  Acme.body (win (world r)) = "$ go test
$
" /\
  Acme.clean (win (world r)) = true.
Proof. cbn. repeat split; reflexivity. Qed.

(** ** One turn of [runner] and of [termRunner] *)

Lemma body_appended (text : string) (w : Acme.Win) :
  Acme.body (Acme.apply (Acme.Fprintf "body" text) w) = Acme.body w ++ text.
Proof. reflexivity. Qed.

Lemma append_nil_r (s : string) : s ++ "" = s.
Proof. induction s as [|c s IH]; cbn; [reflexivity | now rewrite IH]. Qed.

(** The window after the four reset calls, whatever it showed before. *)
Lemma body_after_reset (args : list string) (w : Acme.Win) :
  Acme.body (reset_window args w) = header args.
Proof.
  unfold reset_window.
  rewrite body_appended, body_after_clean, erase_body. reflexivity.
Qed.

(** A turn of [runner] in which [os.Pipe] succeeds, spelled out. *)
Lemma runner_body_eq (args environ : list string) (lastcmd : option Cmd)
    (event : signal) (sr : string + nat) (w : World) :
  runner_body args environ lastcmd event {| pipe_err := None; start := sr |} w =
  let id := Go.incr (run_id w) in
  let cmd := prepared args environ event pipe_w pipe_w in
  match sr with
  | inl err =>
      (Next None,
       {| run_id := id;
          win := Acme.apply (Acme.Fprintf "body" (errline args err))
                   (reset_window args (win w)) |},
       [Lock; SetRunId id; Unlock] ++ kills lastcmd ++ Pipe :: reset_calls args
         ++ [Start cmd; Close pipe_r; Close pipe_w;
             Win (Acme.Fprintf "body" (errline args err))])
  | inr pid =>
      (Next (Some (with_Process pid cmd)),
       {| run_id := id; win := reset_window args (win w) |},
       [Lock; SetRunId id; Unlock] ++ kills lastcmd ++ Pipe :: reset_calls args
         ++ [Start cmd; Close pipe_w; Go_relay id (with_Process pid cmd)])
  end%list.
Proof.
  destruct w as [cur wn]. destruct lastcmd as [c|]; destruct sr as [err|pid];
    reflexivity.
Qed.

(** A turn of [runner] in which [os.Pipe] fails. *)
Lemma runner_body_fatal (args environ : list string) (lastcmd : option Cmd)
    (event : signal) (perr : string) (sr : string + nat) (w : World) :
  runner_body args environ lastcmd event {| pipe_err := Some perr; start := sr |} w =
  (Exited, {| run_id := Go.incr (run_id w); win := win w |},
   [Lock; SetRunId (Go.incr (run_id w)); Unlock] ++ kills lastcmd
     ++ [Pipe; Fatal perr])%list.
Proof.
  destruct w as [cur wn]. destruct lastcmd as [c|]; reflexivity.
Qed.

(** A turn of [termRunner], spelled out. *)
Lemma termRunner_body_eq (args environ : list string) (lastcmd : option Cmd)
    (event : signal) (os : os_answers) (w : World) :
  termRunner_body args environ lastcmd event os w =
  let cmd := prepared args environ event os_Stdout os_Stderr in
  match start os with
  | inl _ => (Next None, w, kills lastcmd ++ [Start cmd])
  | inr pid =>
      (Next (Some (with_Process pid cmd)), w,
       kills lastcmd ++ [Start cmd; Go_wait (with_Process pid cmd)])
  end%list.
Proof.
  destruct os as [pe sr]. destruct lastcmd as [c|]; destruct sr as [err|pid];
    reflexivity.
Qed.

(** C4, as stated, at a turn of [runner] with a tracked process: the kill
    does not come before the increment of [run.id]; it comes after. *)
Lemma kill_not_before_increment :
  let r := runner_body ["go"; "test"] [] (Some c0) None (ok_answers 5)
             {| run_id := 1; win := Acme.new |} in
  firstn 4 (log r) = [Lock; SetRunId 2; Unlock; Kill c0] /\
  precedes is_Kill is_SetRunId (log r) = false.
Proof. split; reflexivity. Qed.

(** C4, amended. In a turn of [runner] with a tracked process, [run.id]
    is incremented and read under the lock first; the kill of the tracked
    process follows, and the new command is started only after it.
    [termRunner] has no generation: it kills, then starts. *)
Theorem increment_then_kill_then_start (args environ : list string) (c : Cmd)
    (event : signal) (os : os_answers) (w : World) :
  let r := runner_body args environ (Some c) event os w in
  let t := termRunner_body args environ (Some c) event os w in
  firstn 4 (log r) = [Lock; SetRunId (Go.incr (run_id w)); Unlock; Kill c] /\
  precedes is_SetRunId is_Kill (log r) = true /\
  precedes is_Kill is_SetRunId (log r) = false /\
  match pipe_err os with
  | None => precedes is_Kill is_Start (log r) = true
  | Some _ => first_index is_Start (log r) = None
  end /\
  first_index is_SetRunId (log t) = None /\
  precedes is_Kill is_Start (log t) = true.
Proof.
  cbn zeta. rewrite termRunner_body_eq.
  destruct os as [[perr|] sr].
  - rewrite runner_body_fatal. cbn. repeat split; destruct sr; reflexivity.
  - rewrite runner_body_eq. cbn. destruct sr as [err|pid]; repeat split; reflexivity.
Qed.

Lemma filter_kills (lastcmd : option Cmd) : filter is_Kill (kills lastcmd) = kills lastcmd.
Proof. destruct lastcmd; reflexivity. Qed.

(** C5, as stated, at a turn of [runner] whose start fails: the process
    tracked before the turn is not what [lastcmd] holds after it. *)
Lemma failed_start_forgets_previous :
  let r := runner_body ["go"; "test"] [] (Some c0) None
             (failing_start "exec: not found") {| run_id := 1; win := Acme.new |} in
  value r = Next None /\ value r <> Next (Some c0).
Proof. split; [reflexivity | discriminate]. Qed.

(** C5, amended. In a turn whose start fails no goroutine is started and
    [lastcmd] is left nil: the process tracked before the turn was sent
    its kill in this turn, and the next turn, whatever it receives, sends
    no kill at all.  This holds for [runner] and for [termRunner]. *)
Theorem failed_start_leaves_lastcmd_nil (args environ : list string)
    (lastcmd : option Cmd) (event : signal) (err : string) (w : World) :
  let r := runner_body args environ lastcmd event (failing_start err) w in
  let t := termRunner_body args environ lastcmd event (failing_start err) w in
  value r = Next None /\
  existsb is_Go (log r) = false /\
  filter is_Kill (log r) = kills lastcmd /\
  (forall event' os',
     filter is_Kill (log (runner_body args environ None event' os' (world r))) = []) /\
  value t = Next None /\
  existsb is_Go (log t) = false /\
  filter is_Kill (log t) = kills lastcmd /\
  (forall event' os',
     filter is_Kill (log (termRunner_body args environ None event' os' (world t))) = []).
Proof.
  cbn zeta. unfold failing_start.
  rewrite runner_body_eq, termRunner_body_eq. cbn [start value log world fst snd].
  split; [reflexivity|].
  split; [destruct lastcmd; reflexivity|].
  split; [destruct lastcmd; reflexivity|].
  split.
  { intros event' [[perr|] sr].
    - rewrite runner_body_fatal. reflexivity.
    - rewrite runner_body_eq. destruct sr; reflexivity. }
  split; [reflexivity|].
  split; [destruct lastcmd; reflexivity|].
  split; [destruct lastcmd; reflexivity|].
  intros event' os'. rewrite termRunner_body_eq.
  destruct (start os'); reflexivity.
Qed.

(** C6, as stated, in terminal mode: a turn of [termRunner] whose start
    fails performs the start and nothing else; no line is written. *)
Lemma termRunner_reports_nothing :
  let w := {| run_id := 0; win := Acme.new |} in
  let r := termRunner_body ["nosuchcmd"] [] None None
             (failing_start "exec: not found") w in
  log r = [Start (prepared ["nosuchcmd"] [] None os_Stdout os_Stderr)] /\
  world r = w /\
  length (filter (fun a => negb (is_Start a)) (log r)) <> 1.
Proof. cbn. repeat split; try reflexivity. discriminate. Qed.

(** C6, amended. When the start fails, [runner] writes to the body the
    header and then one line made of the command line and the error, so
    that the body is these two lines; [termRunner] writes nothing.  In
    both the command is started once, nothing is fatal, and the turn ends
    at the next receive from [needrun] with no tracked process. *)
Theorem failed_start_reported_in_window_only (args environ : list string)
    (lastcmd : option Cmd) (event : signal) (err : string) (w : World) :
  let r := runner_body args environ lastcmd event (failing_start err) w in
  let t := termRunner_body args environ lastcmd event (failing_start err) w in
  value r = Next None /\
  filter is_body_write (log r)
  = [Win (Acme.Fprintf "body" (header args));
     Win (Acme.Fprintf "body" (errline args err))] /\
  Acme.body (win (world r)) = header args ++ errline args err /\
  filter is_Start (log r) = [Start (prepared args environ event pipe_w pipe_w)] /\
  existsb is_Fatal (log r) = false /\
  value t = Next None /\
  log t = (kills lastcmd
           ++ [Start (prepared args environ event os_Stdout os_Stderr)])%list /\
  world t = w.
Proof.
  cbn zeta. unfold failing_start.
  rewrite runner_body_eq, termRunner_body_eq. cbn [start value log world fst snd win].
  split; [reflexivity|].
  split; [destruct lastcmd; reflexivity|].
  split; [rewrite body_appended, body_after_reset; reflexivity|].
  split; [destruct lastcmd; reflexivity|].
  split; [destruct lastcmd; reflexivity|].
  repeat split; reflexivity.
Qed.

(** A turn of [runner] on its own.  A turn that gets its pipe makes,
    before it starts the command and as its first calls on the window,
    the four calls that empty the body, mark the window clean and write
    the header [$ ] and the command line.  When no call of another
    goroutine falls between them, the body after the turn is the header
    alone, or the header and the error line when the start failed,
    whatever it held before. *)
Theorem runner_resets_window_before_start (args environ : list string)
    (lastcmd : option Cmd) (event : signal) (sr : string + nat) (w : World) :
  let r := runner_body args environ lastcmd event
             {| pipe_err := None; start := sr |} w in
  (exists pre post,
     log r = (pre ++ reset_calls args
              ++ Start (prepared args environ event pipe_w pipe_w) :: post)%list /\
     existsb is_Win pre = false /\ existsb is_Start pre = false) /\
  header args = "$ " ++ Go.Join args " " ++ "
" /\
  Acme.body (reset_window args (win w)) = header args /\
  Acme.body (win (world r))
  = header args ++ match sr with
                   | inl err => errline args err
                   | inr _ => ""
                   end.
Proof.
  cbn zeta. rewrite runner_body_eq.
  split.
  { exists ([Lock; SetRunId (Go.incr (run_id w)); Unlock] ++ kills lastcmd ++ [Pipe])%list.
    destruct sr as [err|pid]; eexists; cbn [log snd];
      (split; [rewrite <- !app_assoc; cbn; reflexivity|]);
      split; destruct lastcmd; reflexivity. }
  split; [reflexivity|].
  split; [apply body_after_reset|].
  destruct sr as [err|pid]; cbn [world fst snd win].
  - rewrite body_appended, body_after_reset. reflexivity.
  - rewrite body_after_reset. symmetry. apply append_nil_r.
Qed.

(** The window a goroutine leaves when it runs alone is the window its
    calls give when made in the order of its log. *)
Lemma replay_runner_body (args environ : list string) (lastcmd : option Cmd)
    (event : signal) (os : os_answers) (w : World) :
  replay (log (runner_body args environ lastcmd event os w)) (win w)
  = win (world (runner_body args environ lastcmd event os w)).
Proof.
  destruct os as [[perr|] sr].
  - rewrite runner_body_fatal. destruct lastcmd; reflexivity.
  - rewrite runner_body_eq. destruct lastcmd; destruct sr; reflexivity.
Qed.

Lemma replay_relay_exit (args : list string) (id : Z) (werr : option string)
    (w : World) :
  replay (log (relay_exit args id werr w)) (win w)
  = win (world (relay_exit args id werr w)).
Proof.
  destruct w as [cur wn]. destruct werr as [err|]; run_go.
  - destruct (id =? cur)%Z; reflexivity.
  - reflexivity.
Qed.

(** C10. The window shows the header and the output of run 1, whose
    process [runner] is about to kill.  [runner] takes its turn for run
    2; the relay of run 1, now stale, reaches the end of its pipe and
    makes its closing calls, which are neither gated nor under the lock,
    while [runner] resets the window.  In the order below the relay moves
    the address to [#0] after [runner] has addressed the whole body and
    before [runner] writes the empty text there: nothing is erased, and
    the body that follows the new turn still holds the output of run 1.
    The same turn with no call in between leaves the header alone. *)
Theorem reset_defeated_by_stale_marker :
  let args := ["go"; "test"] in
  let w := {| run_id := 1;
              win := Acme.apply (Acme.Write_ "body" "OLD OUTPUT
") (reset_window args Acme.new) |} in
  let turn := runner_body args [] (Some c0) None (ok_answers 5) w in
  let stale := relay_exit args 1 (Some "signal: killed") (world turn) in
  let t :=
    ([Lock; SetRunId 2; Unlock; Kill c0; Pipe;
      Win (Acme.Addr ",")]
    ++ [Lock; Unlock;
        Win (Acme.Fprintf "body" "$
"); Win (Acme.Fprintf "addr" "#0")]
    ++ [Win (Acme.Write_ "data" ""); Win (Acme.Ctl "clean");
        Win (Acme.Fprintf "body" (header args));
        Start (prepared args [] None pipe_w pipe_w); Close pipe_w;
        Go_relay 2 (with_Process 5 (prepared args [] None pipe_w pipe_w))]
    ++ [Win (Acme.Ctl "dot=addr"); Win (Acme.Ctl "show"); Win (Acme.Ctl "clean")])%list in
  Acme.body (win w) = "$ go test
OLD OUTPUT
" /\
  run_id (world turn) = 2%Z /\
  Acme.body (win (world turn)) = "$ go test
" /\
  interleaving (log turn) (log stale) t /\
  Acme.body (replay t (win w)) = "$ go test
OLD OUTPUT
$
$ go test
".
Proof.
  cbn zeta. split; [reflexivity|]. split; [reflexivity|]. split; [reflexivity|].
  split; [|reflexivity].
  cbn.
  do 6 apply il_left. do 4 apply il_right. do 6 apply il_left.
  do 3 apply il_right. apply il_done.
Qed.

(** ** The generation counter over a whole execution *)

Lemma incr_in_range (z : Z) :
  (Go.min_int <= z < Go.max_int)%Z -> Go.incr z = (z + 1)%Z.
Proof.
  unfold Go.incr, Go.wrap, Go.min_int, Go.max_int. intros H.
  rewrite Z.mod_small; lia.
Qed.

Lemma incr_at_max : Go.incr Go.max_int = Go.min_int.
Proof. reflexivity. Qed.

Lemma relay_ids_app (t u : list action) :
  relay_ids (t ++ u) = (relay_ids t ++ relay_ids u)%list.
Proof.
  induction t as [|a t IH]; cbn; [reflexivity|].
  destruct a; cbn; rewrite IH; reflexivity.
Qed.

Lemma set_ids_app (t u : list action) :
  set_ids (t ++ u) = (set_ids t ++ set_ids u)%list.
Proof.
  induction t as [|a t IH]; cbn; [reflexivity|].
  destruct a; cbn; rewrite IH; reflexivity.
Qed.

Lemma relay_ids_kills (l : option Cmd) : relay_ids (kills l) = [].
Proof. destruct l; reflexivity. Qed.

Lemma set_ids_kills (l : option Cmd) : set_ids (kills l) = [].
Proof. destruct l; reflexivity. Qed.

(** What a turn of [runner] does to [run.id] and which relay it starts. *)
Lemma runner_body_counts (args environ : list string) (lastcmd : option Cmd)
    (event : signal) (os : os_answers) (w : World) :
  let r := runner_body args environ lastcmd event os w in
  run_id (world r) = Go.incr (run_id w) /\
  set_ids (log r) = [Go.incr (run_id w)] /\
  relay_ids (log r)
  = match pipe_err os, start os with
    | None, inr _ => [Go.incr (run_id w)]
    | _, _ => []
    end.
Proof.
  cbn zeta. destruct os as [[perr|] sr].
  - rewrite runner_body_fatal. cbn [world log fst snd run_id pipe_err start].
    rewrite set_ids_app, relay_ids_app. cbn.
    rewrite set_ids_app, relay_ids_app, set_ids_kills, relay_ids_kills.
    repeat split; reflexivity.
  - rewrite runner_body_eq.
    destruct sr as [err|pid]; cbn [world log fst snd run_id pipe_err start];
      rewrite set_ids_app, relay_ids_app; cbn;
      rewrite set_ids_app, relay_ids_app, set_ids_kills, relay_ids_kills;
      repeat split; reflexivity.
Qed.

Lemma relay_chunk_counts (id : Z) (chunk : string) (w : World) :
  let r := relay_chunk id chunk w in
  run_id (world r) = run_id w /\ set_ids (log r) = [] /\ relay_ids (log r) = [].
Proof.
  cbn zeta. rewrite relay_chunk_eq.
  destruct (id =? run_id w)%Z; repeat split; reflexivity.
Qed.

Lemma relay_exit_counts (args : list string) (id : Z) (werr : option string)
    (w : World) :
  let r := relay_exit args id werr w in
  run_id (world r) = run_id w /\ set_ids (log r) = [] /\ relay_ids (log r) = [].
Proof.
  destruct w as [cur wn]. destruct werr as [err|]; run_go.
  - destruct (id =? cur)%Z; repeat split; reflexivity.
  - repeat split; reflexivity.
Qed.

Lemma ids_upto_succ (n : Z) :
  (0 <= n)%Z -> ids_upto (n + 1) = (ids_upto n ++ [(n + 1)%Z])%list.
Proof.
  intros Hn. unfold ids_upto.
  replace (Z.to_nat (n + 1)) with (S (Z.to_nat n)) by lia.
  rewrite seq_S, map_app. cbn [map]. do 2 f_equal. lia.
Qed.

Lemma sorted_snoc (l : list Z) (x : Z) :
  StronglySorted Z.lt l -> Forall (fun g => (g < x)%Z) l ->
  StronglySorted Z.lt (l ++ [x]).
Proof.
  induction 1 as [|a l Hs IH Ha]; intros Hx; cbn.
  - constructor; constructor.
  - inversion Hx as [|a' l' Hax Hlx]; subst.
    constructor; [apply IH; exact Hlx|].
    apply Forall_app. split; [exact Ha | constructor; [exact Hax | constructor]].
Qed.

Lemma restarts_cons (h : happening) (hs : list happening) :
  restarts (h :: hs) = ((if is_restart h then 1 else 0) + restarts hs)%Z.
Proof.
  unfold restarts. cbn [filter]. destruct (is_restart h); cbn [length]; lia.
Qed.

Lemma restarts_nonneg (hs : list happening) : (0 <= restarts hs)%Z.
Proof. unfold restarts. lia. Qed.

Section Execution.

Variable args : list string.
Variable environ : list string.

Lemma sys_step_exited (s : Sys) (h : happening) :
  exited s = true -> sys_step args environ s h = s.
Proof. intros H. unfold sys_step. now rewrite H. Qed.

(** One happening: the counter moves by one at a turn of [runner] and
    not at all otherwise, and the invariant is kept. *)
Lemma sys_step_inv (s : Sys) (h : happening) :
  Inv s -> exited s = false ->
  (is_restart h = true -> (run_id (shared s) < Go.max_int)%Z) ->
  let s' := sys_step args environ s h in
  Inv s' /\
  run_id (shared s')
  = (if is_restart h then run_id (shared s) + 1 else run_id (shared s))%Z.
Proof.
  intros [Hn Hset Hsort Hb] Hex Hmax. cbn zeta.
  unfold sys_step. rewrite Hex.
  destruct h as [event os | id chunk | id werr].
  - specialize (Hmax eq_refl).
    destruct (runner_body_counts args environ (lastcmd_ s) event os (shared s))
      as (Hid & Hs & Hr).
    rewrite incr_in_range in Hid, Hs, Hr by (unfold Go.min_int; lia).
    assert (Hinv : forall l e,
      Inv {| shared := world (runner_body args environ (lastcmd_ s) event os (shared s));
             lastcmd_ := l; exited := e;
             history := (history s
               ++ log (runner_body args environ (lastcmd_ s) event os (shared s)))%list |}).
    { intros l e. constructor; cbn [shared history].
      - rewrite Hid. lia.
      - rewrite set_ids_app, Hs, Hset, Hid. symmetry. now apply ids_upto_succ.
      - rewrite relay_ids_app, Hr.
        destruct (pipe_err os); [rewrite app_nil_r; exact Hsort|].
        destruct (start os); [rewrite app_nil_r; exact Hsort|].
        apply sorted_snoc; [exact Hsort|].
        eapply Forall_impl; [|exact Hb]. cbn. intros; lia.
      - rewrite relay_ids_app, Hr, Hid. apply Forall_app. split.
        + eapply Forall_impl; [|exact Hb]. cbn. intros; lia.
        + destruct (pipe_err os); [constructor|].
          destruct (start os); constructor; [lia | constructor]. }
    destruct (value (runner_body args environ (lastcmd_ s) event os (shared s)));
      (split; [apply Hinv | cbn [shared is_restart]; exact Hid]).
  - destruct (relay_chunk_counts id chunk (shared s)) as (Hid & Hs & Hr).
    split; [|cbn [shared is_restart]; exact Hid].
    constructor; cbn [shared history].
    + rewrite Hid. exact Hn.
    + rewrite set_ids_app, Hs, app_nil_r, Hid. exact Hset.
    + rewrite relay_ids_app, Hr, app_nil_r. exact Hsort.
    + rewrite relay_ids_app, Hr, app_nil_r, Hid. exact Hb.
  - destruct (relay_exit_counts args id werr (shared s)) as (Hid & Hs & Hr).
    split; [|cbn [shared is_restart]; exact Hid].
    constructor; cbn [shared history].
    + rewrite Hid. exact Hn.
    + rewrite set_ids_app, Hs, app_nil_r, Hid. exact Hset.
    + rewrite relay_ids_app, Hr, app_nil_r. exact Hsort.
    + rewrite relay_ids_app, Hr, app_nil_r, Hid. exact Hb.
Qed.

Lemma sys_run_exited (hs : list happening) : forall s,
  exited s = true -> sys_run args environ s hs = s.
Proof.
  induction hs as [|h hs IH]; intros s H; cbn; [reflexivity|].
  rewrite (sys_step_exited s h H). now apply IH.
Qed.

(** Any execution: the invariant is kept, and [run.id] has advanced by
    the number of turns of [runner], all of them unless [log.Fatal] cut
    the execution short. *)
Lemma sys_run_inv (hs : list happening) : forall s,
  Inv s -> (run_id (shared s) + restarts hs <= Go.max_int)%Z ->
  let s' := sys_run args environ s hs in
  Inv s' /\
  (run_id (shared s) <= run_id (shared s') <= run_id (shared s) + restarts hs)%Z /\
  (if exited s' then True
   else run_id (shared s') = (run_id (shared s) + restarts hs)%Z).
Proof.
  induction hs as [|h hs IH]; intros s HI Hmax; cbn zeta.
  - cbn. unfold restarts. cbn. split; [exact HI|]. split; [lia|].
    destruct (exited s); [exact I | lia].
  - rewrite restarts_cons in *. pose proof (restarts_nonneg hs) as Hnn.
    destruct (exited s) eqn:Hex.
    + rewrite (sys_run_exited (h :: hs) s Hex). rewrite Hex.
      split; [exact HI|]. split; [|exact I].
      destruct (is_restart h); lia.
    + cbn [sys_run fold_left].
      destruct (sys_step_inv s h HI Hex) as [HI' Hid'].
      { intros Hr. rewrite Hr in Hmax. lia. }
      specialize (IH (sys_step args environ s h) HI').
      cbn zeta in IH. unfold sys_run in IH. rewrite Hid' in IH.
      destruct IH as (HI'' & Hle & Hexact).
      { destruct (is_restart h); lia. }
      split; [exact HI''|].
      split; [destruct (is_restart h); lia|].
      destruct (exited (fold_left (sys_step args environ) hs
                          (sys_step args environ s h))); [exact I|].
      destruct (is_restart h); lia.
Qed.

End Execution.

Lemma Inv_sys0 : Inv sys0.
Proof.
  constructor; cbn.
  - lia.
  - reflexivity.
  - constructor.
  - constructor.
Qed.

Lemma sys_run_from_start (args environ : list string) (hs : list happening) :
  (restarts hs <= Go.max_int)%Z ->
  let s := sys_run args environ sys0 hs in
  Inv s /\
  (0 <= run_id (shared s) <= restarts hs)%Z /\
  (if exited s then True else run_id (shared s) = restarts hs).
Proof.
  intros Hmax. cbn zeta.
  destruct (sys_run_inv args environ hs sys0 Inv_sys0) as (HI & Hle & Hex).
  { cbn. exact Hmax. }
  cbn in Hle, Hex.
  split; [exact HI|]. split; [lia | exact Hex].
Qed.

(** C3. In every execution of the windowed program -- turns of [runner]
    interleaved in any way with the reads and the ends of the relays, and
    no more turns than a Go [int] can count -- the values [run.id++]
    stores are 1, 2, 3, ... in this order, one per turn of [runner] and up
    to the present [run.id]; the relays never change it.  The generations
    the relays were started with are therefore strictly increasing in the
    order of their start, and none exceeds the present [run.id]. *)
Theorem generations_strictly_increase (args environ : list string)
    (hs : list happening) :
  (restarts hs <= Go.max_int)%Z ->
  let s := sys_run args environ sys0 hs in
  StronglySorted Z.lt (relay_ids (history s)) /\
  set_ids (history s) = ids_upto (run_id (shared s)) /\
  Forall (fun g => (1 <= g <= run_id (shared s))%Z) (relay_ids (history s)) /\
  (0 <= run_id (shared s) <= restarts hs)%Z /\
  (if exited s then True else run_id (shared s) = restarts hs).
Proof.
  intros Hmax. cbn zeta.
  destruct (sys_run_from_start args environ hs Hmax) as ([Hn Hset Hsort Hb] & Hle & Hex).
  split; [exact Hsort|]. split; [exact Hset|]. split; [exact Hb|].
  split; [exact Hle | exact Hex].
Qed.

Lemma generations_strictly_increase_witness :
  let hs := [Restart None (ok_answers 11); Chunk 1 "ok";
             Restart (Some {| ID := 7; Op := "put"; Name := "/w/a.go" |})
               (failing_start "exec: not found");
             Restart None (ok_answers 12); Chunk 1 "late"; Eof 1 (Some "signal: killed");
             Eof 3 None] in
  (restarts hs <= Go.max_int)%Z /\
  StronglySorted Z.lt (relay_ids (history (sys_run ["go"; "test"] [] sys0 hs))).
Proof.
  cbn zeta.
  assert (H : (restarts [Restart None (ok_answers 11); Chunk 1 "ok";
             Restart (Some {| ID := 7; Op := "put"; Name := "/w/a.go" |})
               (failing_start "exec: not found");
             Restart None (ok_answers 12); Chunk 1 "late"; Eof 1 (Some "signal: killed");
             Eof 3 None] <= Go.max_int)%Z).
  { unfold restarts, Go.max_int. cbn. lia. }
  split; [exact H|].
  apply (generations_strictly_increase ["go"; "test"] [] _ H).
Defined.

Example relays_of_an_execution :
  relay_ids (history (sys_run ["go"; "test"] [] sys0
    [Restart None (ok_answers 11); Chunk 1 "ok";
     Restart None (failing_start "exec: not found");
     Restart None (ok_answers 12); Chunk 1 "late"])) = [1%Z; 3%Z].
Proof. reflexivity. Qed.

Lemma restarts_app (hs hs' : list happening) :
  restarts (hs ++ hs') = (restarts hs + restarts hs')%Z.
Proof. unfold restarts. rewrite filter_app, length_app. lia. Qed.

(** X14. Stale discard.  A relay that was started before some later turn of
    [runner] writes none of the chunks it reads after that turn: the
    window is the same before and after each of them. *)
Lemma stale_chunks_discarded (args environ : list string)
    (hs1 hs2 : list happening) (event : signal) (os : os_answers)
    (g : Z) (chunk : string) :
  (restarts (hs1 ++ Restart event os :: hs2) <= Go.max_int)%Z ->
  In g (relay_ids (history (sys_run args environ sys0 hs1))) ->
  let s := sys_run args environ sys0 (hs1 ++ Restart event os :: hs2) in
  win (shared (sys_step args environ s (Chunk g chunk))) = win (shared s).
Proof.
  intros Hmax Hin. cbn zeta.
  set (s := sys_run args environ sys0 (hs1 ++ Restart event os :: hs2)).
  destruct (exited s) eqn:Hex.
  - now rewrite (sys_step_exited args environ s _ Hex).
  - pose proof (restarts_nonneg hs2) as Hnn2.
    rewrite restarts_app, restarts_cons in Hmax. cbn [is_restart] in Hmax.
    destruct (sys_run_from_start args environ hs1) as ([_ _ _ Hb] & Hle & _).
    { lia. }
    destruct (sys_run_from_start args environ
                (hs1 ++ Restart event os :: hs2)) as (_ & _ & Hid).
    { rewrite restarts_app, restarts_cons. cbn [is_restart]. lia. }
    fold s in Hid. rewrite Hex in Hid.
    rewrite restarts_app, restarts_cons in Hid. cbn [is_restart] in Hid.
    rewrite Forall_forall in Hb. specialize (Hb g Hin). cbn zeta in Hb, Hle.
    unfold sys_step. rewrite Hex. cbn [shared].
    rewrite relay_chunk_eq.
    destruct (Z.eqb_spec g (run_id (shared s))) as [E|E]; [lia | reflexivity].
Qed.

Lemma stale_chunks_discarded_witness :
  let hs1 := [Restart None (ok_answers 11)] in
  let s := sys_run ["go"; "test"] [] sys0 (hs1 ++ Restart None (ok_answers 12) :: []) in
  win (shared (sys_step ["go"; "test"] [] s (Chunk 1 "late"))) = win (shared s).
Proof.
  cbn zeta.
  apply (stale_chunks_discarded ["go"; "test"] [] [Restart None (ok_answers 11)] []).
  - unfold restarts, Go.max_int. cbn. lia.
  - cbn. left. reflexivity.
Defined.

(** * Further properties of the code *)

(** ** The loop of [main] and the loop of [events] *)

Lemma main_loop_pending (re : Go.Regexp) (pwd : string) (y : signal)
    (reads : list read_result) : forall slept,
  main_loop re pwd reads (pending y) slept
  = (pending y,
     (slept + 100 * Z.of_nat (length (filter (qualifies re pwd)
                                        (read_before_error reads))))%Z,
     read_error reads).
Proof.
  induction reads as [|[event|msg] reads IH]; intros slept;
    cbn [main_loop read_before_error read_error filter].
  - do 2 f_equal. cbn [length]. lia.
  - unfold main_step. destruct (qualifies re pwd event).
    + cbn [Chan.select_send_default Chan.send pending Chan.queue Chan.cap
           length Nat.ltb Nat.leb fst].
      rewrite IH. do 2 f_equal. cbn [length]. lia.
    + rewrite IH. do 2 f_equal. lia.
  - do 2 f_equal. cbn [length]. lia.
Qed.

Lemma main_loop_idle (re : Go.Regexp) (pwd : string)
    (reads : list read_result) : forall slept,
  main_loop re pwd reads idle slept
  = (match filter (qualifies re pwd) (read_before_error reads) with
     | [] => idle
     | event :: _ => pending (Some event)
     end,
     (slept + 100 * Z.of_nat (length (filter (qualifies re pwd)
                                        (read_before_error reads))))%Z,
     read_error reads).
Proof.
  induction reads as [|[event|msg] reads IH]; intros slept;
    cbn [main_loop read_before_error read_error filter].
  - do 2 f_equal. cbn [length]. lia.
  - unfold main_step. destruct (qualifies re pwd event).
    + cbn [Chan.select_send_default Chan.send idle Chan.queue Chan.cap
           length Nat.ltb Nat.leb fst app].
      change {| Chan.cap := 1; Chan.queue := [Some event] |} with (pending (Some event)).
      rewrite main_loop_pending. do 2 f_equal. cbn [length]. lia.
    + rewrite IH. do 2 f_equal. lia.
  - do 2 f_equal. cbn [length]. lia.
Qed.

(** X1. Whatever the log delivers while [runner] does not receive, the
    loop of [main] leaves a pending signal as it is and otherwise makes
    the first qualifying event the pending one; it sleeps 100 ms for
    every qualifying event, also for those whose signal was dropped, and
    it stops at the first failed read, ignoring what follows. *)
Theorem main_loop_keeps_first (re : Go.Regexp) (pwd : string)
    (reads : list read_result) (ops : list chan_op) :
  let ch := chan_run needrun0 ops in
  let q := filter (qualifies re pwd) (read_before_error reads) in
  main_loop re pwd reads ch 0
  = (match Chan.queue ch, q with
     | [], event :: _ => pending (Some event)
     | _, _ => ch
     end,
     (100 * Z.of_nat (length q))%Z,
     read_error reads).
Proof.
  cbn zeta. destruct (needrun_shape ops) as [H | [y H]]; cbn zeta in H; rewrite H.
  - change {| Chan.cap := 1; Chan.queue := [] |} with idle.
    rewrite main_loop_idle. cbn [Chan.queue idle].
    destruct (filter (qualifies re pwd) (read_before_error reads)); reflexivity.
  - change {| Chan.cap := 1; Chan.queue := [y] |} with (pending y).
    rewrite main_loop_pending. reflexivity.
Qed.

Example burst_of_three :
  let put n := ReadOk {| ID := 1; Op := "put"; Name := n |} in
  main_loop (Go.re_anchored_suffix ".go") "/w"
    [put "/w/README.md"; put "/w/a.go"; put "/elsewhere/b.go"; put "/w/c.go";
     ReadErr "EOF"; put "/w/d.go"] idle 0
  = (pending (Some {| ID := 1; Op := "put"; Name := "/w/a.go" |}), 200%Z, Some "EOF").
Proof. reflexivity. Qed.

Lemma events_log (es : list Event) : forall ch,
  snd (events es ch)
  = (flat_map (fun e => if is_Get e then []
                        else if is_Del e then [Ctl_delete; WriteEvent e]
                        else [WriteEvent e]) es ++ [Exit 0])%list.
Proof.
  induction es as [|e es IH]; intros ch; cbn; [reflexivity|].
  specialize (IH (fst (events_body e ch))).
  destruct (events_body e ch) as [ch1 t] eqn:Eb. cbn [fst] in IH.
  destruct (events es ch1) as [ch2 t'] eqn:Ee. cbn [snd] in *. subst t'.
  rewrite <- app_assoc. f_equal.
  unfold events_body in Eb. unfold is_Get, is_Del.
  destruct (is_execute e); cbn.
  - destruct (Text e =? "Get") eqn:Hg; [now inversion Eb|].
    destruct (Text e =? "Del"); now inversion Eb.
  - now inversion Eb.
Qed.

Lemma written_back_app (t u : list events_action) :
  written_back (t ++ u) = (written_back t ++ written_back u)%list.
Proof.
  induction t as [|a t IH]; cbn; [reflexivity|].
  destruct a; cbn; now rewrite IH.
Qed.

Lemma deletes_app (t u : list events_action) :
  deletes (t ++ u) = deletes t + deletes u.
Proof.
  induction t as [|a t IH]; cbn; [reflexivity|].
  destruct a; cbn; now rewrite IH.
Qed.

(** X2. [events] hands back to acme, in the order received, every event
    except the executions of [Get]; it asks for the deletion of the
    window once per execution of [Del]; and when the window's channel
    closes it exits with status 0.  None of this depends on [needrun]. *)
Theorem events_passes_back_all_but_Get (es : list Event) (ch : Chan.t signal) :
  let t := snd (events es ch) in
  written_back t = filter (fun e => negb (is_Get e)) es /\
  deletes t = length (filter is_Del es) /\
  last t (Exit 1) = Exit 0.
Proof.
  cbn zeta. rewrite events_log.
  split; [|split].
  - rewrite written_back_app. cbn. rewrite app_nil_r.
    induction es as [|e es IH]; cbn; [reflexivity|].
    rewrite written_back_app, IH. unfold is_Del.
    destruct (is_Get e) eqn:Hg; cbn; [reflexivity|].
    destruct (is_execute e && (Text e =? "Del")); reflexivity.
  - rewrite deletes_app. cbn. rewrite Nat.add_0_r.
    induction es as [|e es IH]; cbn; [reflexivity|].
    rewrite deletes_app, IH.
    destruct (is_Get e) eqn:Hg; cbn.
    + unfold is_Get, is_Del in *. apply andb_true_iff in Hg. destruct Hg as [Hx Ht].
      rewrite Hx. cbn. apply String.eqb_eq in Ht. rewrite Ht. reflexivity.
    + destruct (is_Del e); reflexivity.
  - apply last_last.
Qed.

(** The request to delete the window comes right before the event is
    handed back. *)
Lemma events_delete_then_write (es : list Event) (ch : Chan.t signal) (e : Event) :
  is_Del e = true -> In e es ->
  exists t1 t2, snd (events es ch) = (t1 ++ Ctl_delete :: WriteEvent e :: t2)%list.
Proof.
  intros Hd Hin. rewrite events_log.
  apply in_split in Hin. destruct Hin as (l1 & l2 & ->).
  rewrite flat_map_app. cbn [flat_map].
  assert (Hg : is_Get e = false).
  { unfold is_Get, is_Del in *. apply andb_true_iff in Hd. destruct Hd as [Hx Ht].
    rewrite Hx. cbn. apply String.eqb_eq in Ht. rewrite Ht. reflexivity. }
  rewrite Hg, Hd. eexists. eexists.
  rewrite <- app_assoc. cbn. reflexivity.
Qed.

Lemma events_cons_chan (e : Event) (es : list Event) (ch : Chan.t signal) :
  fst (events (e :: es) ch) = fst (events es (fst (events_body e ch))).
Proof.
  cbn [events]. destruct (events_body e ch) as [ch1 t]. cbn [fst].
  now destruct (events es ch1).
Qed.

Lemma events_body_chan (e : Event) (ch : Chan.t signal) :
  fst (events_body e ch) = if is_Get e then events_Get ch else ch.
Proof.
  unfold events_body, is_Get. destruct (is_execute e); [|reflexivity].
  cbn [andb]. destruct (Text e =? "Get"); [reflexivity|].
  destruct (Text e =? "Del"); reflexivity.
Qed.

Lemma events_pending (es : list Event) (y : signal) :
  fst (events es (pending y)) = pending y.
Proof.
  induction es as [|e es IH]; [reflexivity|].
  rewrite events_cons_chan, events_body_chan.
  destruct (is_Get e); exact IH.
Qed.

Lemma events_idle (es : list Event) :
  fst (events es idle) = if existsb is_Get es then pending None else idle.
Proof.
  induction es as [|e es IH]; [reflexivity|].
  rewrite events_cons_chan, events_body_chan. cbn [existsb].
  destruct (is_Get e); cbn [orb].
  - apply (events_pending es None).
  - exact IH.
Qed.

(** X3. What [events] does to [needrun]: a pending signal and its
    context stay as they are however often [Get] is executed; on the idle
    channel the first execution of [Get] puts the signal without context
    there, and events other than executions of [Get] put nothing. *)
Theorem events_offers_on_Get_only (es : list Event) (ops : list chan_op) :
  let ch := chan_run needrun0 ops in
  fst (events es ch)
  = match Chan.queue ch with
    | [] => if existsb is_Get es then pending None else idle
    | _ :: _ => ch
    end.
Proof.
  cbn zeta. destruct (needrun_shape ops) as [H | [y H]]; cbn zeta in H; rewrite H.
  - apply events_idle.
  - apply (events_pending es y).
Qed.

Lemma offers_keep_pending (y : signal) (xs : list signal) :
  chan_run (pending y) (map Offer xs) = pending y.
Proof.
  induction xs as [|x xs IH]; cbn; [reflexivity | exact IH].
Qed.

(** X4. [main] sends the signal without context before it starts any
    goroutine and before its own loop, so nothing is offered to [needrun]
    before it; the send finds the new channel empty and does not block;
    and whatever is offered between it and the supervisor's first
    receive, that receive yields the signal without context: the first
    run is always the run without context. *)
Theorem startup_signal_is_first (args : list string) (term : bool) (pwd : string)
    (ans : setup_answers) (xs : list signal) :
  let acts := fst (main_setup args term pwd ans) in
  (if existsb is_goroutine acts then hd Panic acts = Send_nil else True) /\
  Chan.recv needrun0 = Chan.Blocks /\
  exists ch,
    Chan.send needrun0 None = Chan.Ready ch /\
    Chan.recv (chan_run ch (map Offer xs)) = Chan.Ready (None, idle).
Proof.
  cbn zeta. split; [|split; [reflexivity|]].
  - unfold main_setup. destruct args as [|a args]; [reflexivity|].
    destruct (compiled ans) as [re|]; [|reflexivity].
    cbn [Chan.send needrun0 Chan.make Chan.queue Chan.cap length Nat.ltb Nat.leb].
    unfold open_log. destruct term.
    + destruct (acme_Log_err ans); reflexivity.
    + destruct (acme_New_err ans); [reflexivity|].
      destruct (acme_Log_err ans); reflexivity.
  - exists (pending None). split; [reflexivity|].
    rewrite offers_keep_pending. reflexivity.
Qed.

(** ** More on the environment of a run *)

Lemma without_reserved_app (E E' : list string) :
  without_reserved (E ++ E') = (without_reserved E ++ without_reserved E')%list.
Proof. apply filter_app. Qed.

Lemma without_reserved_readded (p : string) (w : Z) :
  without_reserved (readded p w) = [].
Proof.
  unfold without_reserved, readded. cbn [filter].
  now rewrite key_samfile, key_percent, key_winid.
Qed.

Lemma without_reserved_idem (E : list string) :
  without_reserved (without_reserved E) = without_reserved E.
Proof.
  unfold without_reserved.
  induction E as [|v E IH]; cbn; [reflexivity|].
  destruct (negb (reserved (key_of v))) eqn:Hv; cbn; [|exact IH].
  now rewrite Hv, IH.
Qed.

Lemma without_reserved_envOf (E : list string) (c : signal) :
  without_reserved (envOf E c) = without_reserved E.
Proof.
  destruct c as [e|].
  - rewrite envOf_Some, without_reserved_app, without_reserved_readded,
      without_reserved_idem. apply app_nil_r.
  - rewrite envOf_None. apply without_reserved_idem.
Qed.

(** X5. Building the environment from an environment that [envOf] built
    gives what building it from the ambient one gives: the entries of an
    earlier context never add up and never survive.  So a command that
    itself runs Watch passes on only its own context. *)
Theorem envOf_forgets_earlier_context (E : list string) (c1 c2 : signal) :
  envOf (envOf E c1) c2 = envOf E c2.
Proof.
  destruct c2 as [e|].
  - now rewrite !envOf_Some, without_reserved_envOf.
  - now rewrite !envOf_None, without_reserved_envOf.
Qed.

Lemma without_reserved_id (E : list string) :
  Forall (fun v => reserved (key_of v) = false) E -> without_reserved E = E.
Proof.
  unfold without_reserved. induction 1 as [|v E Hv _ IH]; cbn; [reflexivity|].
  now rewrite Hv, IH.
Qed.

(** X6. An ambient environment in which no entry has the key [samfile],
    [%] or [winid] is passed on whole and in order: unchanged without a
    context, followed by the three entries of the context with one. *)
Theorem envOf_keeps_other_entries (E : list string) (c : signal) :
  Forall (fun v => reserved (key_of v) = false) E ->
  envOf E c = (E ++ match c with
                    | Some e => readded (Name e) (ID e)
                    | None => []
                    end)%list.
Proof.
  intros H. destruct c as [e|].
  - now rewrite envOf_Some, (without_reserved_id E H).
  - now rewrite envOf_None, (without_reserved_id E H), app_nil_r.
Qed.

Lemma envOf_keeps_other_entries_witness :
  envOf ["HOME=/h"; "samfiles=1"; "PATH=/bin"; "novalue"] None
  = (["HOME=/h"; "samfiles=1"; "PATH=/bin"; "novalue"] ++ [])%list.
Proof.
  apply (envOf_keeps_other_entries ["HOME=/h"; "samfiles=1"; "PATH=/bin"; "novalue"] None).
  repeat constructor.
Defined.

Lemma getenv_envOf (E : list string) (c : signal) (k : string) :
  getenv k (envOf E c)
  = match c with
    | Some e =>
        if k =? "samfile" then Some (Name e)
        else if k =? "%" then Some (Name e)
        else if k =? "winid" then Some (Go.fmt_d (ID e))
        else getenv k E
    | None => if reserved k then None else getenv k E
    end.
Proof.
  destruct c as [e|].
  - rewrite envOf_Some.
    pose proof (getenv_without_reserved k E) as Hrest.
    unfold getenv, readded in *. rewrite rev_app_distr.
    cbn [rev app find]. rewrite key_winid, key_percent, key_samfile.
    rewrite (String.eqb_sym "winid" k), (String.eqb_sym "%" k),
      (String.eqb_sym "samfile" k).
    unfold reserved in Hrest.
    destruct (k =? "samfile") eqn:H1.
    + apply String.eqb_eq in H1. subst k. reflexivity.
    + destruct (k =? "%") eqn:H2.
      * apply String.eqb_eq in H2. subst k. reflexivity.
      * destruct (k =? "winid") eqn:H3; [reflexivity | exact Hrest].
  - rewrite envOf_None. apply getenv_without_reserved.
Qed.

(** ** More on the turns of the supervisors *)

Lemma child_environ_prepared (args environ : list string) (event : signal)
    (out err : File) :
  child_environ environ (prepared args environ event out err)
  = match event, without_reserved environ with
    | None, [] => environ
    | _, _ => envOf environ event
    end.
Proof.
  unfold child_environ, prepared. cbn [Env with_Env].
  destruct event as [e|].
  - rewrite envOf_Some. unfold readded.
    destruct (without_reserved environ); reflexivity.
  - rewrite envOf_None. destruct (without_reserved environ); reflexivity.
Qed.

(** X7. In a turn that reaches [Start], in window and in terminal mode
    alike, one command is started: the arguments of Watch, with
    [cmd.Env] set to what [envOf] builds from the received signal.  After
    a put the started process sees the path of the file as [$samfile] and
    [$%] and its window as [$winid], and every other variable as Watch
    does.  After [Get] or at startup it sees none of the three and the
    rest as Watch does -- unless every entry of Watch's environment has
    one of the three keys: then [envOf] returns the nil slice, [os/exec]
    falls back on the environment of Watch, and the process sees all of
    it, the three keys included.  In window mode both outputs of the
    command are the write end of the pipe, in terminal mode they are
    those of Watch. *)
Theorem started_command_sees_context (args environ : list string)
    (lastcmd : option Cmd) (event : signal) (sr : string + nat) (w : World) :
  let os := {| pipe_err := None; start := sr |} in
  let cr := prepared args environ event pipe_w pipe_w in
  let ct := prepared args environ event os_Stdout os_Stderr in
  filter is_Start (log (runner_body args environ lastcmd event os w)) = [Start cr] /\
  filter is_Start (log (termRunner_body args environ lastcmd event os w)) = [Start ct] /\
  Args cr = args /\ Args ct = args /\ Env ct = Env cr /\
  Env cr = envOf environ event /\
  child_environ environ ct = child_environ environ cr /\
  Stdout cr = Some pipe_w /\ Stderr cr = Some pipe_w /\
  Stdout ct = Some os_Stdout /\ Stderr ct = Some os_Stderr /\
  forall k,
    getenv k (child_environ environ cr)
    = match event with
      | Some e =>
          if k =? "samfile" then Some (Name e)
          else if k =? "%" then Some (Name e)
          else if k =? "winid" then Some (Go.fmt_d (ID e))
          else getenv k environ
      | None =>
          match without_reserved environ with
          | [] => getenv k environ
          | _ :: _ => if reserved k then None else getenv k environ
          end
      end.
Proof.
  cbn zeta. rewrite runner_body_eq, termRunner_body_eq. cbn [start].
  split; [destruct lastcmd; destruct sr; reflexivity|].
  split; [destruct lastcmd; destruct sr; reflexivity|].
  do 9 (split; [reflexivity|]).
  intros k. rewrite child_environ_prepared.
  destruct event as [e|].
  - rewrite (getenv_envOf environ (Some e) k).
    destruct (without_reserved environ); reflexivity.
  - destruct (without_reserved environ) eqn:Hw; [reflexivity|].
    apply (getenv_envOf environ None k).
Qed.

Example context_of_a_put :
  let cmd := prepared ["go"; "test"] ["HOME=/h"; "samfile=/old"] 
               (Some {| ID := 7; Op := "put"; Name := "/w/a.go" |}) pipe_w pipe_w in
  child_environ ["HOME=/h"; "samfile=/old"] cmd
  = ["HOME=/h"; "samfile=/w/a.go"; "%=/w/a.go"; "winid=7"].
Proof. reflexivity. Qed.

Example nil_environment_is_inherited :
  let environ := ["samfile=/old"; "winid=3"] in
  let cmd := prepared ["go"; "test"] environ None pipe_w pipe_w in
  Env cmd = [] /\
  child_environ environ cmd = environ /\
  getenv "samfile" (child_environ environ cmd) = Some "/old".
Proof. repeat split; reflexivity. Qed.

Lemma bind_run {A B} (m : M A) (f : A -> M B) (w : World) :
  bind m f w
  = (value (f (value (m w)) (world (m w))),
     world (f (value (m w)) (world (m w))),
     (log (m w) ++ log (f (value (m w)) (world (m w))))%list).
Proof.
  unfold bind, value, world, log.
  destruct (m w) as [[a w1] t1]. cbn.
  destruct (f a w1) as [[b w2] t2]. reflexivity.
Qed.

Lemma killed_app (t u : list action) : killed (t ++ u) = (killed t ++ killed u)%list.
Proof. induction t as [|a t IH]; cbn; [reflexivity|]. destruct a; cbn; now rewrite IH. Qed.

Lemma started_app (t u : list action) : started (t ++ u) = (started t ++ started u)%list.
Proof. induction t as [|a t IH]; cbn; [reflexivity|]. destruct a; cbn; now rewrite IH. Qed.

Lemma count_app (p : action -> bool) (t u : list action) :
  count p (t ++ u) = count p t + count p u.
Proof. unfold count. now rewrite filter_app, length_app. Qed.

(** One turn of [runner]: who is killed, who is started, and the pipe. *)
Lemma runner_body_turn (args environ : list string) (lastcmd : option Cmd)
    (event : signal) (os : os_answers) (w : World) :
  let r := runner_body args environ lastcmd event os w in
  killed (log r) = as_list lastcmd /\
  started (log r) = as_list (tracked (value r)) /\
  count is_Close_w (log r) = count is_Start (log r) /\
  count is_Close_r (log r) + count is_Go_relay (log r) = count is_Start (log r) /\
  count is_Pipe (log r) = count is_Start (log r) + count is_Fatal (log r) /\
  count is_Fatal (log r) = match value r with Exited => 1 | Next _ => 0 end.
Proof.
  cbn zeta. destruct os as [[perr|] sr].
  - rewrite runner_body_fatal. destruct lastcmd; repeat split; reflexivity.
  - rewrite runner_body_eq. destruct lastcmd; destruct sr; repeat split; reflexivity.
Qed.

Lemma termRunner_body_turn (args environ : list string) (lastcmd : option Cmd)
    (event : signal) (os : os_answers) (w : World) :
  let r := termRunner_body args environ lastcmd event os w in
  killed (log r) = as_list lastcmd /\
  started (log r) = as_list (tracked (value r)) /\
  world r = w /\
  value r <> Exited /\
  Forall (fun a => is_Kill a || is_Start a || is_Go a = true) (log r).
Proof.
  cbn zeta. rewrite termRunner_body_eq.
  destruct lastcmd; destruct (start os); cbn;
    (split; [reflexivity|]); (split; [reflexivity|]); (split; [reflexivity|]);
    (split; [discriminate|]); repeat constructor.
Qed.

Lemma runner_from_cons (args environ : list string) (lastcmd : option Cmd)
    (event : signal) (os : os_answers) (rest : list (signal * os_answers)) (w : World) :
  let r := runner_body args environ lastcmd event os w in
  runner_from args environ lastcmd ((event, os) :: rest) w
  = match value r with
    | Next l =>
        let r' := runner_from args environ l rest (world r) in
        (value r', world r', (log r ++ log r')%list)
    | Exited => (Exited, world r, log r)
    end.
Proof.
  cbn zeta. cbn [runner_from]. rewrite bind_run.
  destruct (value (runner_body args environ lastcmd event os w)); cbn.
  - reflexivity.
  - now rewrite app_nil_r.
Qed.

Lemma termRunner_from_cons (args environ : list string) (lastcmd : option Cmd)
    (event : signal) (os : os_answers) (rest : list (signal * os_answers)) (w : World) :
  let r := termRunner_body args environ lastcmd event os w in
  termRunner_from args environ lastcmd ((event, os) :: rest) w
  = match value r with
    | Next l =>
        let r' := termRunner_from args environ l rest (world r) in
        (value r', world r', (log r ++ log r')%list)
    | Exited => (Exited, world r, log r)
    end.
Proof.
  cbn zeta. cbn [termRunner_from]. rewrite bind_run.
  destruct (value (termRunner_body args environ lastcmd event os w)); cbn.
  - reflexivity.
  - now rewrite app_nil_r.
Qed.


Lemma termRunner_from_kills (args environ : list string)
    (inputs : list (signal * os_answers)) : forall lastcmd w,
  let r := termRunner_from args environ lastcmd inputs w in
  (as_list lastcmd ++ started (log r))%list
  = (killed (log r) ++ as_list (tracked (value r)))%list /\
  world r = w /\
  Forall (fun a => is_Kill a || is_Start a || is_Go a = true) (log r).
Proof.
  induction inputs as [|[event os] rest IH]; intros lastcmd w; cbn zeta.
  - cbn. rewrite app_nil_r. repeat split. constructor.
  - rewrite termRunner_from_cons. cbn zeta.
    destruct (termRunner_body_turn args environ lastcmd event os w)
      as (Hk & Hs & Hw & Hne & Hall).
    destruct (value (termRunner_body args environ lastcmd event os w)) as [l|] eqn:Hv;
      [|congruence].
    cbn [value world log fst snd tracked] in *.
    destruct (IH l (world (termRunner_body args environ lastcmd event os w)))
      as (IH1 & IH2 & IH3).
    split; [|split].
    + rewrite started_app, killed_app, Hk, Hs, <- app_assoc. f_equal. exact IH1.
    + now rewrite IH2.
    + apply Forall_app. split; assumption.
Qed.


(** X9. [termRunner] does nothing but kill, start and hand the started
    command to a goroutine that waits for it: over any number of turns
    it leaves [run.id] and the window alone, takes no lock, writes no
    line, and never ends the program. *)
Theorem termRunner_touches_nothing_shared (args environ : list string)
    (inputs : list (signal * os_answers)) (w : World) :
  let t := termRunner args environ inputs w in
  world t = w /\
  Forall (fun a => is_Kill a || is_Start a || is_Go a = true) (log t) /\
  value t <> Exited /\
  count is_Start (log t) = length inputs.
Proof.
  cbn zeta. unfold termRunner.
  destruct (termRunner_from_kills args environ inputs None w) as (_ & Hw & Hall).
  split; [exact Hw|]. split; [exact Hall|].
  clear Hw Hall. generalize (@None Cmd) as l. revert w.
  induction inputs as [|[event os] rest IH]; intros w l.
  - split; [discriminate | reflexivity].
  - rewrite termRunner_from_cons. cbn zeta.
    destruct (termRunner_body_turn args environ l event os w) as (_ & _ & _ & Hne & _).
    pose proof (termRunner_body_eq args environ l event os w) as Heq.
    destruct (value (termRunner_body args environ l event os w)) as [l'|] eqn:Hv;
      [|congruence].
    cbn [value world log fst snd].
    destruct (IH (world (termRunner_body args environ l event os w)) l') as [IH1 IH2].
    split; [exact IH1|].
    rewrite count_app, IH2. cbn [length]. f_equal.
    rewrite Heq. destruct l; destruct (start os); reflexivity.
Qed.

Lemma runner_from_pipes (args environ : list string)
    (inputs : list (signal * os_answers)) : forall lastcmd w,
  let r := runner_from args environ lastcmd inputs w in
  count is_Close_w (log r) = count is_Start (log r) /\
  count is_Close_r (log r) + count is_Go_relay (log r) = count is_Start (log r) /\
  count is_Pipe (log r) = count is_Start (log r) + count is_Fatal (log r) /\
  count is_Fatal (log r) = match value r with Exited => 1 | Next _ => 0 end.
Proof.
  induction inputs as [|[event os] rest IH]; intros lastcmd w; cbn zeta.
  - cbn. repeat split.
  - rewrite runner_from_cons. cbn zeta.
    destruct (runner_body_turn args environ lastcmd event os w)
      as (_ & _ & H1 & H2 & H3 & H4).
    destruct (value (runner_body args environ lastcmd event os w)) as [l|] eqn:Hv;
      cbn [value world log fst snd] in *.
    + destruct (IH l (world (runner_body args environ lastcmd event os w)))
        as (I1 & I2 & I3 & I4).
      rewrite !count_app. repeat split; lia.
    + repeat split; assumption.
Qed.

(** X10. Over any number of turns of [runner], every pipe it opened is
    accounted for: the write end is closed in the turn that started a
    command on it, the read end is either closed (the start failed) or
    in the hands of one relay; a pipe without a start is one that could
    not be opened, which ends the program, so there is at most one. *)
Theorem runner_accounts_for_pipes (args environ : list string)
    (inputs : list (signal * os_answers)) (w : World) :
  let r := runner args environ inputs w in
  count is_Close_w (log r) = count is_Start (log r) /\
  count is_Close_r (log r) + count is_Go_relay (log r) = count is_Start (log r) /\
  count is_Pipe (log r) = count is_Start (log r) + count is_Fatal (log r) /\
  count is_Fatal (log r) = match value r with Exited => 1 | Next _ => 0 end.
Proof. apply (runner_from_pipes args environ inputs None w). Qed.

(** ** The relay goroutine as a whole *)

Lemma append_assoc_s (a b c : string) : (a ++ b) ++ c = a ++ (b ++ c).
Proof. induction a as [|x a IH]; cbn; [reflexivity | now rewrite IH]. Qed.


Lemma body_writes_app (t u : list action) :
  body_writes (t ++ u) = (body_writes t ++ body_writes u)%list.
Proof.
  induction t as [|a t IH]; cbn; [reflexivity|].
  destruct a as [| | | | | | |c| | |]; cbn; try exact IH.
  destruct c; cbn; try exact IH; destruct (file =? "body"); cbn; now rewrite IH.
Qed.

Lemma relay_reads_facts (id : Z) (chunks : list string) : forall w,
  let r := relay_reads id chunks w in
  run_id (world r) = run_id w /\
  body_writes (log r) = (if (id =? run_id w)%Z then chunks else []) /\
  Acme.body (win (world r))
  = Acme.body (win w) ++ joined (if (id =? run_id w)%Z then chunks else []) /\
  (if (id =? run_id w)%Z then True else world r = w).
Proof.
  induction chunks as [|chunk rest IH]; intros w; cbn zeta.
  - destruct (id =? run_id w)%Z; cbn; rewrite append_nil_r;
      repeat split; reflexivity.
  - cbn [relay_reads]. rewrite bind_run. cbn [value world log fst snd].
    specialize (IH (world (relay_chunk id chunk w))). cbn zeta in IH.
    rewrite body_writes_app.
    rewrite relay_chunk_eq in *.
    destruct (id =? run_id w)%Z eqn:Hc; cbn [value world log fst snd run_id win] in *.
    + rewrite Hc in IH. destruct IH as (I1 & I2 & I3 & _).
      split; [exact I1|]. split; [rewrite I2; reflexivity|].
      split; [|exact I].
      rewrite I3. cbn. now rewrite append_assoc_s.
    + rewrite Hc in IH. destruct IH as (I1 & I2 & I3 & I4).
      split; [exact I1|]. split; [rewrite I2; reflexivity|].
      split; [exact I3 | exact I4].
Qed.

Lemma relay_exit_facts (args : list string) (id : Z) (werr : option string)
    (w : World) :
  let r := relay_exit args id werr w in
  let lines := if (id =? run_id w)%Z
               then match werr with
                    | Some err => [errline args err]
                    | None => []
                    end
               else [] in
  run_id (world r) = run_id w /\
  body_writes (log r) = (lines ++ ["$
"])%list /\
  Acme.body (win (world r)) = Acme.body (win w) ++ joined (lines ++ ["$
"]) /\
  Acme.clean (win (world r)) = true /\
  Acme.addr (win (world r)) = (0, 0) /\
  Acme.dot (win (world r)) = (0, 0).
Proof.
  destruct w as [cur wn]. destruct werr as [err|]; run_go.
  - destruct (id =? cur)%Z; cbn.
    + rewrite append_assoc_s. repeat split; reflexivity.
    + repeat split; reflexivity.
  - destruct (id =? cur)%Z; cbn; repeat split; reflexivity.
Qed.


(** X12. A run from start to end when nothing interrupts it: after the
    turn of [runner] that started the command and the relay of that turn,
    the body of the window is the header, the output of the command, a
    line for its error if it failed, and the marker; the window is marked
    clean and address and selection are at its start.  What the window
    showed before and the value of [run.id] do not matter. *)
Theorem uninterrupted_run_in_window (args environ : list string)
    (lastcmd : option Cmd) (event : signal) (pid : nat)
    (chunks : list string) (werr : option string) (w : World) :
  let t := runner_body args environ lastcmd event (ok_answers pid) w in
  let r := relay args (run_id (world t)) chunks werr (world t) in
  relay_ids (log t) = [run_id (world t)] /\
  Acme.body (win (world r))
  = header args ++ joined chunks
    ++ match werr with
       | Some err => errline args err
       | None => ""
       end ++ "$
" /\
  Acme.clean (win (world r)) = true /\
  Acme.addr (win (world r)) = (0, 0) /\
  Acme.dot (win (world r)) = (0, 0).
Proof.
  cbn zeta. unfold ok_answers.
  destruct (runner_body_counts args environ lastcmd event
              {| pipe_err := None; start := inr pid |} w) as (Hid & _ & Hr).
  cbn [pipe_err start] in Hr. rewrite <- Hid in Hr.
  split; [exact Hr|].
  set (t := runner_body args environ lastcmd event
              {| pipe_err := None; start := inr pid |} w) in *.
  assert (Hb : Acme.body (win (world t)) = header args).
  { subst t. rewrite runner_body_eq. cbn [world fst snd win]. apply body_after_reset. }
  unfold relay. rewrite bind_run. cbn [value world log fst snd].
  destruct (relay_reads_facts (run_id (world t)) chunks (world t)) as (R1 & _ & R3 & _).
  destruct (relay_exit_facts args (run_id (world t)) werr
              (world (relay_reads (run_id (world t)) chunks (world t))))
    as (_ & _ & E3 & E4 & E5 & E6).
  rewrite R1, Z.eqb_refl in E3. rewrite Z.eqb_refl in R3.
  split; [|repeat split; assumption].
  rewrite E3, R3, Hb. destruct werr as [err|]; cbn [joined app];
    now rewrite append_assoc_s.
Qed.

(** ** More on whole executions *)

Lemma sorted_last (l : list Z) (g d : Z) :
  StronglySorted Z.lt l -> In g l -> Forall (fun x => (x <= g)%Z) l ->
  last l d = g.
Proof.
  induction 1 as [|a l Hs IH Ha]; intros Hin Hle; [contradiction|].
  inversion Hle as [|a' l' Hag Hlg]; subst.
  destruct l as [|b l]; cbn [last].
  - destruct Hin as [E|[]]. exact E.
  - apply IH; [|exact Hlg].
    destruct Hin as [E|Hin]; [|exact Hin]. subst a.
    inversion Ha as [|b' l' Hgb _]; subst.
    inversion Hlg as [|b' l' Hbg _]; subst. lia.
Qed.

(** X13. In every execution of the windowed program only the relay that
    was started last can write what it reads: a chunk read by any relay
    started before it leaves the window as it is, whenever it is read. *)
Theorem only_latest_relay_writes (args environ : list string)
    (hs : list happening) (g : Z) (chunk : string) :
  (restarts hs <= Go.max_int)%Z ->
  let s := sys_run args environ sys0 hs in
  In g (relay_ids (history s)) ->
  g <> last (relay_ids (history s)) 0%Z ->
  win (shared (sys_step args environ s (Chunk g chunk))) = win (shared s).
Proof.
  intros Hmax s Hin Hne.
  destruct (exited s) eqn:Hex.
  - now rewrite (sys_step_exited args environ s _ Hex).
  - destruct (sys_run_from_start args environ hs Hmax) as ([_ _ Hsort Hb] & _ & _).
    fold s in Hsort, Hb.
    unfold sys_step. rewrite Hex. cbn [shared]. rewrite relay_chunk_eq.
    destruct (Z.eqb_spec g (run_id (shared s))) as [E|E]; [|reflexivity].
    exfalso. apply Hne. symmetry. apply sorted_last; [exact Hsort | exact Hin|].
    eapply Forall_impl; [|exact Hb]. cbn. intros; lia.
Qed.

Lemma only_latest_relay_writes_witness :
  let hs := [Restart None (ok_answers 11); Restart None (ok_answers 12)] in
  let s := sys_run ["go"; "test"] [] sys0 hs in
  win (shared (sys_step ["go"; "test"] [] s (Chunk 1 "late"))) = win (shared s).
Proof.
  cbn zeta.
  apply (only_latest_relay_writes ["go"; "test"] []
           [Restart None (ok_answers 11); Restart None (ok_answers 12)] 1 "late").
  - unfold restarts, Go.max_int. cbn. lia.
  - cbn. left. reflexivity.
  - cbn. discriminate.
Defined.

(** ** The start of [main] *)

(** X15. However the setup of [main] goes, it starts at most one
    supervisor, and exactly one when it enters its loop: [termRunner]
    with [-t], [runner] without.  With [-t] it never creates a window nor
    starts [events].  It enters the loop only if a command was given,
    with the compiled pattern, having sent the startup signal first and
    opened the log last; without a command it prints the usage line and
    exits with status 2 before anything else. *)
Theorem main_setup_outcomes (args : list string) (term : bool) (pwd : string)
    (ans : setup_answers) :
  let acts := fst (main_setup args term pwd ans) in
  length (filter is_supervisor acts) <= 1 /\
  (if term then existsb is_Setup_win acts = false else True) /\
  match args with
  | [] => main_setup args term pwd ans = (usage, None)
  | _ :: _ => hd Panic acts <> Usage "usage: Watch [-only pattern] cmd args...
"
  end /\
  match snd (main_setup args term pwd ans) with
  | Some re =>
      args <> [] /\ compiled ans = Some re /\
      hd Panic acts = Send_nil /\
      filter is_supervisor acts = [if term then Go_termRunner else Go_runner] /\
      existsb is_Setup_win acts = negb term /\
      last acts Panic = Acme_Log
  | None =>
      exists a, last acts Send_nil = a /\
        match a with
        | OsExit 2 => args = []
        | Panic => compiled ans = None
        | Setup_fatal _ => True
        | _ => False
        end
  end.
Proof.
  cbn zeta. unfold main_setup.
  destruct args as [|a args].
  { cbn. repeat split; try lia. destruct term; reflexivity.
    eexists; split; reflexivity. }
  destruct (compiled ans) as [re|].
  2:{ cbn. repeat split; try lia; try discriminate. destruct term; reflexivity.
      eexists; split; reflexivity. }
  cbn [Chan.send needrun0 Chan.make Chan.queue Chan.cap length Nat.ltb Nat.leb app].
  unfold open_log.
  destruct term.
  - destruct (acme_Log_err ans); cbn;
      repeat split; try lia; try discriminate; try reflexivity.
    eexists; split; reflexivity.
  - destruct (acme_New_err ans); [|destruct (acme_Log_err ans)]; cbn;
      repeat split; try lia; try discriminate; try reflexivity;
      eexists; split; reflexivity.
Qed.
